(** * Metasearch fusion engine: URL canonicalisation, de-duplication,
      score normalisation and rank fusion (utils.py, fusion.py)

    Modelling conventions.
    - A Python [str] is a [string]; a character is a code point below 256.
    - A Python [int] is a [Z]; a Python [float] is an exact rational [Q]
      (rounding, infinities and NaN are outside the model), and statements
      about computed scores are up to [Qeq].
    - A result item is a Python dict; dicts are objects, so a list of results
      is a list of references into a heap.  The heap is a list of records and
      a reference is an index; [id(r)] is that index.
    - The dicts [fused_scores], [sums] and [representative] are association
      lists in insertion order, which is the order of [dict.items()].
    - A raised exception is [None]. *)

From Stdlib Require Import List String Ascii Bool Arith ZArith QArith Lia.
From Stdlib Require Import Permutation Sorted DecimalString DecimalNat.
From Stdlib Require Import DecimalZ Lqa.
Import ListNotations.

Set Implicit Arguments.
Close Scope Q_scope.

(* ================================================================== *)
(** * Strings *)
(* ================================================================== *)

Module Str.

Local Open Scope string_scope.

(** Code points below 256 for which [str.isspace()] holds. *)
Definition is_space (c : ascii) : bool :=
  let n := nat_of_ascii c in
  (((9 <=? n) && (n <=? 13)) || ((28 <=? n) && (n <=? 32))
   || (n =? 133) || (n =? 160))%nat.

(** [str.lower()] on one code point below 256: A-Z and the Latin-1 capitals
    (all of 192..222 but the multiplication sign 215) move up by 32. *)
Definition lower_char (c : ascii) : ascii :=
  let n := nat_of_ascii c in
  if (((65 <=? n) && (n <=? 90))
      || ((192 <=? n) && (n <=? 222) && negb (n =? 215)))%nat
  then ascii_of_nat (n + 32) else c.

Fixpoint lower (s : string) : string :=
  match s with
  | EmptyString => EmptyString
  | String c s' => String (lower_char c) (lower s')
  end.

Definition is_empty (s : string) : bool :=
  match s with EmptyString => true | _ => false end.

Fixpoint lstrip (s : string) : string :=
  match s with
  | EmptyString => EmptyString
  | String c s' => if is_space c then lstrip s' else s
  end.

Fixpoint rstrip (s : string) : string :=
  match s with
  | EmptyString => EmptyString
  | String c s' =>
      let r := rstrip s' in
      if is_space c && is_empty r then EmptyString else String c r
  end.

(** [s.strip()] *)
Definition strip (s : string) : string := rstrip (lstrip s).

(** [Some rest] when [s = p ++ rest]. *)
Fixpoint drop_prefix (p s : string) : option string :=
  match p with
  | EmptyString => Some s
  | String a p' =>
      match s with
      | EmptyString => None
      | String b s' => if Ascii.eqb a b then drop_prefix p' s' else None
      end
  end.

(** [s.endswith("/")] *)
Fixpoint endswith_slash (s : string) : bool :=
  match s with
  | EmptyString => false
  | String c EmptyString => Ascii.eqb c "/"
  | String _ s' => endswith_slash s'
  end.

(** [s[:-1]] *)
Fixpoint drop_last (s : string) : string :=
  match s with
  | EmptyString => EmptyString
  | String _ EmptyString => EmptyString
  | String c s' => String c (drop_last s')
  end.

Definition newline : ascii := ascii_of_nat 10.

Definition is_newline (c : ascii) : bool := Ascii.eqb c newline.

Definition is_query_mark (c : ascii) : bool :=
  Ascii.eqb c "?" || Ascii.eqb c "#".

Fixpoint has_newline (s : string) : bool :=
  match s with
  | EmptyString => false
  | String c s' => is_newline c || has_newline s'
  end.

End Str.

(* ================================================================== *)
(** * The two regular expressions of [canonicalize_url] *)
(* ================================================================== *)

Module Re.

Import Str.
Local Open Scope string_scope.

(** [re.sub(r"^https?://(www\.)?", "", u)]: the pattern is anchored at the
    start, so at most one match is replaced.  [s?] and [(www\.)?] are
    greedy; neither can give back what it took and still match. *)
Definition sub_scheme (u : string) : string :=
  match drop_prefix "http" u with
  | None => u
  | Some r =>
      let after_s := match drop_prefix "s" r with Some r' => r' | None => r end in
      match drop_prefix "://" after_s with
      | None => u
      | Some rest =>
          match drop_prefix "www." rest with
          | Some rest' => rest'
          | None => rest
          end
      end
  end.

(** [.*$] matched against [s]: [.] is any character but a newline, and [$]
    holds at the end of the string or just before a newline that is the
    last character.  [dot_star_dollar s] says the match succeeds and
    [after_dot_star s] is what is left unmatched after it. *)
Fixpoint dot_star_dollar (s : string) : bool :=
  match s with
  | EmptyString => true
  | String c s' => if is_newline c then is_empty s' else dot_star_dollar s'
  end.

Fixpoint after_dot_star (s : string) : string :=
  match s with
  | EmptyString => EmptyString
  | String c s' => if is_newline c then s else after_dot_star s'
  end.

(** [re.sub(r"[#?].*$", "", u)]: scan from the left; where the pattern
    matches the match is deleted and the scan resumes behind it, elsewhere
    the character is kept.  Behind a match there is at most one newline
    left, which cannot match. *)
Fixpoint sub_query (u : string) : string :=
  match u with
  | EmptyString => EmptyString
  | String c u' =>
      if is_query_mark c && dot_star_dollar u' then after_dot_star u'
      else String c (sub_query u')
  end.

End Re.

(* ================================================================== *)
(** * utils.py: canonicalize_url *)
(* ================================================================== *)

Definition canonicalize_url (url : string) : string :=
  let u := Str.lower (Str.strip url) in
  let u := Re.sub_scheme u in
  let u := Re.sub_query u in
  if Str.endswith_slash u then Str.drop_last u else u.

(** The six steps as the specification words them, for comparison with
    [canonicalize_url]. *)
Module CanonSpec.

Import Str.
Local Open Scope string_scope.

Definition strip_scheme (u : string) : string * bool :=
  match drop_prefix "https://" u with
  | Some r => (r, true)
  | None =>
      match drop_prefix "http://" u with
      | Some r => (r, true)
      | None => (u, false)
      end
  end.

Definition strip_www (ub : string * bool) : string :=
  let (u, had_scheme) := ub in
  if had_scheme then
    match drop_prefix "www." u with Some r => r | None => u end
  else u.

Fixpoint truncate_at_mark (u : string) : string :=
  match u with
  | EmptyString => EmptyString
  | String c u' => if is_query_mark c then EmptyString
                   else String c (truncate_at_mark u')
  end.

Definition strip_one_slash (u : string) : string :=
  if endswith_slash u then drop_last u else u.

Definition canonicalize (url : string) : string :=
  strip_one_slash
    (truncate_at_mark (strip_www (strip_scheme (lower (strip url))))).

End CanonSpec.

(* ================================================================== *)
(** * Result items and the heap they live in *)
(* ================================================================== *)

(** A result dict with the keys of the schema; [None] is a missing key
    (for [score] also the value [None], which the code never tells apart
    from a missing key). *)
Record Result : Type := mkResult {
  title : option string;
  url : option string;
  snippet : option string;
  rank : option Z;
  source : option string;
  score : option Q
}.

Definition empty_dict : Result := mkResult None None None None None None.

(** [r["rank"] = i], [r["source"] = s], [r["score"] = x] on a record value *)
Definition with_rank (r : Result) (i : Z) : Result :=
  mkResult (title r) (url r) (snippet r) (Some i) (source r) (score r).

Definition with_source (r : Result) (s : string) : Result :=
  mkResult (title r) (url r) (snippet r) (rank r) (Some s) (score r).

Definition with_score (r : Result) (x : Q) : Result :=
  mkResult (title r) (url r) (snippet r) (rank r) (source r) (Some x).

(** [str(item.get("url", ""))] *)
Definition get_url (r : Result) : string :=
  match url r with Some u => u | None => EmptyString end.

(** [int(item.get("rank", 999999))] *)
Definition get_rank (r : Result) : Z :=
  match rank r with Some n => n | None => 999999%Z end.

Definition loc : Type := nat.
Definition Heap : Type := list Result.

(** Reading through a reference.  A reference to no object cannot arise in
    Python; here it reads as the empty dict, and [valid] below rules it out
    where a property depends on it. *)
Definition deref (h : Heap) (l : loc) : Result := nth l h empty_dict.

Fixpoint store (h : Heap) (l : loc) (r : Result) : Heap :=
  match h with
  | [] => []
  | x :: t => match l with
              | O => r :: t
              | S l' => x :: store t l' r
              end
  end.

(** A new object is placed behind all existing ones. *)
Definition alloc (h : Heap) (r : Result) : loc * Heap :=
  (List.length h, h ++ [r]).

Definition setitem_rank (h : Heap) (l : loc) (i : Z) : Heap :=
  store h l (with_rank (deref h l) i).

Definition setitem_source (h : Heap) (l : loc) (s : string) : Heap :=
  store h l (with_source (deref h l) s).

Definition setitem_score (h : Heap) (l : loc) (x : Q) : Heap :=
  store h l (with_score (deref h l) x).

(** Every reference of the list points to an allocated object. *)
Definition valid (h : Heap) (ls : list loc) : Prop :=
  Forall (fun l => l < List.length h) ls.

(* ================================================================== *)
(** * Python dicts keyed by strings, in insertion order *)
(* ================================================================== *)

Definition dict (V : Type) : Type := list (string * V).

Fixpoint dict_get (V : Type) (d : dict V) (k : string) : option V :=
  match d with
  | [] => None
  | (k', v) :: t => if String.eqb k' k then Some v else dict_get t k
  end.

Definition dict_mem (V : Type) (d : dict V) (k : string) : bool :=
  match dict_get d k with Some _ => true | None => false end.

(** [d[k] = v]: an existing key keeps its place, a new one goes last. *)
Fixpoint dict_set (V : Type) (d : dict V) (k : string) (v : V) : dict V :=
  match d with
  | [] => [(k, v)]
  | (k', v') :: t =>
      if String.eqb k' k then (k', v) :: t else (k', v') :: dict_set t k v
  end.

Definition keys (V : Type) (d : dict V) : list string := map fst d.

(** A loop whose body may raise. *)
Fixpoint for_each (S A : Type) (body : S -> A -> option S)
    (xs : list A) (st : S) : option S :=
  match xs with
  | [] => Some st
  | x :: xs' =>
      match body st x with
      | Some st' => for_each body xs' st'
      | None => None
      end
  end.

(* ================================================================== *)
(** * utils.py: deduplicate *)
(* ================================================================== *)

(** Decimal rendering of an object id, as in [f"{id(r)}"]. *)
Definition decimal (n : nat) : string :=
  NilEmpty.string_of_uint (Nat.to_uint n).

Definition empty_prefix : string := "__empty__:".

Definition dedup_key (h : Heap) (r : loc) : string :=
  let u := get_url (deref h r) in
  if Str.is_empty u then String.append empty_prefix (decimal r)
  else canonicalize_url u.

Definition set_mem (k : string) (seen : list string) : bool :=
  existsb (String.eqb k) seen.

(** The first loop: [seen] is the set, [unique] the list built so far. *)
Fixpoint dedup_loop (h : Heap) (results : list loc)
    (seen : list string) (unique : list loc) : list loc :=
  match results with
  | [] => unique
  | r :: rest =>
      let key := dedup_key h r in
      if set_mem key seen then dedup_loop h rest seen unique
      else dedup_loop h rest (key :: seen) (unique ++ [r])
  end.

(** [for i, r in enumerate(unique, start=i): r["rank"] = i] *)
Fixpoint assign_ranks (unique : list loc) (i : Z) (h : Heap) : Heap :=
  match unique with
  | [] => h
  | r :: rest => assign_ranks rest (i + 1)%Z (setitem_rank h r i)
  end.

Definition deduplicate (results : list loc) (h : Heap) : list loc * Heap :=
  let unique := dedup_loop h results [] [] in
  (unique, assign_ranks unique 1%Z h).

(* ================================================================== *)
(** * utils.py: minmax_normalize_scores *)
(* ================================================================== *)

(** [[float(r["score"]) for r in results if r.get("score") is not None]] *)
Fixpoint collect_scores (h : Heap) (results : list loc) : list Q :=
  match results with
  | [] => []
  | r :: rest =>
      match score (deref h r) with
      | Some s => s :: collect_scores h rest
      | None => collect_scores h rest
      end
  end.

(** [min] and [max] of a non-empty list [x :: xs]: the running value is
    replaced only by a strictly smaller (larger) one. *)
Definition py_min (x : Q) (xs : list Q) : Q :=
  fold_left (fun m y => if Qle_bool m y then m else y) xs x.

Definition py_max (x : Q) (xs : list Q) : Q :=
  fold_left (fun m y => if Qle_bool y m then m else y) xs x.

Fixpoint set_all_one (results : list loc) (h : Heap) : Heap :=
  match results with
  | [] => h
  | r :: rest =>
      match score (deref h r) with
      | Some _ => set_all_one rest (setitem_score h r 1%Q)
      | None => set_all_one rest h
      end
  end.

Fixpoint rescale (lo rng : Q) (results : list loc) (h : Heap) : Heap :=
  match results with
  | [] => h
  | r :: rest =>
      match score (deref h r) with
      | Some s => rescale lo rng rest (setitem_score h r ((s - lo) / rng)%Q)
      | None => rescale lo rng rest h
      end
  end.

Definition minmax_normalize_scores (results : list loc) (h : Heap)
    : list loc * Heap :=
  match collect_scores h results with
  | [] => (results, h)
  | s0 :: ss =>
      let lo := py_min s0 ss in
      let hi := py_max s0 ss in
      if Qeq_bool hi lo then (results, set_all_one results h)
      else (results, rescale lo (hi - lo)%Q results h)
  end.

(* ================================================================== *)
(** * fusion.py *)
(* ================================================================== *)

(** The two dicts a fusion loop maintains: the accumulated scores and the
    representative (a reference to the first item seen) of each url. *)
Definition fusion_state : Type := (dict Q * dict loc)%type.

Definition add_contribution (st : fusion_state) (u : string) (item : loc)
    (contrib : Q) : fusion_state :=
  let (scores, representative) := st in
  (dict_set scores u
     (match dict_get scores u with Some s => s | None => 0%Q end + contrib)%Q,
   if dict_mem representative u then representative
   else dict_set representative u item).

(** Body of the inner loop of [rrf_fusion]; dividing by zero raises. *)
Definition rrf_item (h : Heap) (k : Z) (st : fusion_state) (item : loc)
    : option fusion_state :=
  let u := get_url (deref h item) in
  let rk := get_rank (deref h item) in
  if Str.is_empty u then Some st
  else if (k + rk =? 0)%Z then None
  else Some (add_contribution st u item (1 / inject_Z (k + rk))%Q).

(** [(1.0 / max(rank, 1)) if raw_score is None else float(raw_score)] *)
Definition combsum_contrib (r : Result) : Q :=
  match score r with
  | None => (1 / inject_Z (Z.max (get_rank r) 1))%Q
  | Some s => s
  end.

Definition combsum_item (h : Heap) (st : fusion_state) (item : loc)
    : option fusion_state :=
  let u := get_url (deref h item) in
  if Str.is_empty u then Some st
  else Some (add_contribution st u item (combsum_contrib (deref h item))).

(** [for per_source in ranked_lists: for item in per_source: body] *)
Definition accumulate (body : fusion_state -> loc -> option fusion_state)
    (ranked_lists : list (list loc)) : option fusion_state :=
  for_each (fun st per_source => for_each body per_source st)
    ranked_lists ([], []).

(** [sorted(d.items(), key=lambda x: x[1], reverse=True)]: a stable sort,
    so an item goes in front of the sorted rest as long as its score is not
    smaller than the score it meets. *)
Fixpoint insert_desc (x : string * Q) (l : list (string * Q))
    : list (string * Q) :=
  match l with
  | [] => [x]
  | y :: l' =>
      if Qle_bool (snd y) (snd x) then x :: l else y :: insert_desc x l'
  end.

Definition sorted_desc (items : list (string * Q)) : list (string * Q) :=
  fold_right insert_desc [] items.

Definition fused_label : string := "fused".

(** The output loop: copy the representative, overwrite three fields of the
    copy, append it.  A url without representative would be a KeyError. *)
Fixpoint emit (representative : dict loc) (ordered : list (string * Q))
    (i : Z) (fused : list loc) (h : Heap) : option (list loc * Heap) :=
  match ordered with
  | [] => Some (fused, h)
  | (u, s) :: rest =>
      match dict_get representative u with
      | None => None
      | Some item =>
          let (rep, h1) := alloc h (deref h item) in
          let h2 := setitem_rank h1 rep i in
          let h3 := setitem_source h2 rep fused_label in
          let h4 := setitem_score h3 rep s in
          emit representative rest (i + 1)%Z (fused ++ [rep]) h4
      end
  end.

Definition fuse (body : fusion_state -> loc -> option fusion_state)
    (ranked_lists : list (list loc)) (h : Heap) : option (list loc * Heap) :=
  match accumulate body ranked_lists with
  | None => None
  | Some (scores, representative) =>
      emit representative (sorted_desc scores) 1%Z [] h
  end.

Definition rrf_fusion (ranked_lists : list (list loc)) (k : Z) (h : Heap)
    : option (list loc * Heap) :=
  fuse (rrf_item h k) ranked_lists h.

Definition combsum_fusion (ranked_lists : list (list loc)) (h : Heap)
    : option (list loc * Heap) :=
  fuse (combsum_item h) ranked_lists h.


(* ================================================================== *)
(** * Notions used to state the properties *)
(* ================================================================== *)

(** A url with a line break behind its query. *)
Definition url_with_newline : string :=
  String.append "a?b" (String Str.newline "c").

(** What [deduplicate] keeps, read off the list from left to right. *)
Fixpoint keep_first (h : Heap) (results : list loc) (seen : list string)
    : list loc :=
  match results with
  | [] => []
  | r :: rest =>
      if set_mem (dedup_key h r) seen then keep_first h rest seen
      else r :: keep_first h rest (dedup_key h r :: seen)
  end.

(** The [rank] fields of a list of results, in list order. *)
Definition ranks_of (h : Heap) (ls : list loc) : list (option Z) :=
  map (fun l => rank (deref h l)) ls.

(** [1, 2, ..., n] as [rank] fields, counting from [i]. *)
Fixpoint count_from (i : Z) (n : nat) : list (option Z) :=
  match n with
  | O => []
  | S n' => Some i :: count_from (i + 1)%Z n'
  end.

(** Two records that differ at most in [rank]. *)
Definition same_but_rank (r r' : Result) : Prop :=
  title r' = title r /\ url r' = url r /\ snippet r' = snippet r
  /\ source r' = source r /\ score r' = score r.

(** ** Min-max normalisation *)








(** ** Fusion *)

Definition item_url (h : Heap) (item : loc) : string := get_url (deref h item).

Definition has_url (h : Heap) (item : loc) : bool :=
  negb (Str.is_empty (item_url h item)).

(** The non-empty urls of the input in the order the two nested loops meet
    them, every occurrence counted. *)
Definition urls_of (h : Heap) (items : list loc) : list string :=
  map (item_url h) (filter (has_url h) items).


(** The distinct elements of a list in the order of their first
    occurrence. *)
Definition add_key (ks : list string) (u : string) : list string :=
  if set_mem u ks then ks else ks ++ [u].

Definition first_seen (l : list string) : list string :=
  fold_left add_key l [].


(** [a] stands somewhere in front of [b]. *)
Definition before (A : Type) (a b : A) (l : list A) : Prop :=
  exists l1 l2 l3, l = l1 ++ a :: l2 ++ b :: l3.

(** Sum, in the order of the loops and starting from 0.0, of the
    contributions [c] of the items whose url is [u]. *)
Definition total (c : Result -> Q) (h : Heap) (u : string)
    (items : list loc) : Q :=
  fold_left
    (fun acc item =>
       if String.eqb (item_url h item) u then (acc + c (deref h item))%Q
       else acc)
    items 0%Q.

(** The first item with url [u]. *)
Definition first_item (h : Heap) (u : string) (items : list loc)
    : option loc :=
  find (fun item => String.eqb (item_url h item) u) items.

(** The loop body shared by both fusion functions: skip an item without
    url, raise where [ok] fails, add [c] otherwise. *)
Definition fusion_item (ok : Result -> bool) (c : Result -> Q) (h : Heap)
    (st : fusion_state) (item : loc) : option fusion_state :=
  if has_url h item then
    if ok (deref h item)
    then Some (add_contribution st (item_url h item) item (c (deref h item)))
    else None
  else Some st.

Definition rrf_ok (k : Z) (r : Result) : bool :=
  negb (k + get_rank r =? 0)%Z.

Definition rrf_contrib (k : Z) (r : Result) : Q :=
  (1 / inject_Z (k + get_rank r))%Q.

(** What the two dicts hold after the loop has run over [items]: the keys
    in first-seen order, the running sum and the first item of each url. *)
Definition accumulated (c : Result -> Q) (h : Heap) (items : list loc)
    (st : fusion_state) : Prop :=
  keys (fst st) = first_seen (urls_of h items)
  /\ keys (snd st) = first_seen (urls_of h items)
  /\ (forall u, In u (urls_of h items) ->
        dict_get (fst st) u = Some (total c h u items))
  /\ (forall u, In u (urls_of h items) ->
        dict_get (snd st) u = first_item h u items).

(** The record appended for a url: the representative with three fields
    overwritten. *)
Definition fused_record (r : Result) (i : Z) (s : Q) : Result :=
  with_score (with_source (with_rank r i) fused_label) s.

(** Scores never go up along the list. *)
Definition descending (l : list (string * Q)) : Prop :=
  StronglySorted (fun a b => (snd b <= snd a)%Q) l.


(** The records the output loop appends for [ordered], counting from [i],
    when the representatives are read in [h]. *)
Fixpoint fused_records (h : Heap) (representative : dict loc)
    (ordered : list (string * Q)) (i : Z) : list Result :=
  match ordered with
  | [] => []
  | (u, s) :: rest =>
      match dict_get representative u with
      | Some item =>
          fused_record (deref h item) i s
            :: fused_records h representative rest (i + 1)%Z
      | None => []
      end
  end.

(** No item with a url makes the loop body raise. *)
Definition runs (ok : Result -> bool) (h : Heap) (items : list loc) : bool :=
  forallb (fun item => negb (has_url h item) || ok (deref h item)) items.

(** The url and the score of a record, as a pair. *)
Definition get_score (r : Result) : Q :=
  match score r with Some s => s | None => 0%Q end.

Definition entry (r : Result) : string * Q := (get_url r, get_score r).

Definition entries (h : Heap) (ls : list loc) : list (string * Q) :=
  map (fun a => entry (deref h a)) ls.

(** Every url to be emitted has an allocated representative. *)
Definition represented (h : Heap) (representative : dict loc)
    (ordered : list (string * Q)) : Prop :=
  forall u s, In (u, s) ordered ->
    exists item, dict_get representative u = Some item
                 /\ item < List.length h.

(** [out] and [h'] are what a fusion over [items] with contribution [c]
    leaves behind: the sorted items of the score dict, one fresh record
    each, appended to the heap. *)
Definition fused_from (c : Result -> Q) (h : Heap) (items : list loc)
    (out : list loc) (h' : Heap) : Prop :=
  exists scores representative,
    accumulated c h items (scores, representative)
    /\ represented h representative (sorted_desc scores)
    /\ out = seq (List.length h) (List.length scores)
    /\ h' = h ++ fused_records h representative (sorted_desc scores) 1%Z.

(** ** The properties of a fusion result *)








Definition scores_descend (out : list loc) (h' : Heap) : Prop :=
  forall a b, before a b out ->
    exists sa sb, score (deref h' a) = Some sa
      /\ score (deref h' b) = Some sb /\ (sb <= sa)%Q.


Definition ranks_contiguous (out : list loc) (h' : Heap) : Prop :=
  ranks_of h' out = count_from 1%Z (List.length out).



(** Every record of [h] is still there, unchanged. *)
Definition input_untouched (h h' : Heap) : Prop :=
  firstn (List.length h) h' = h.

(** Every output entry is a new object: the first item seen with its url,
    copied, with rank, source and score overwritten. *)
Definition fresh_copies (h : Heap) (items : list loc) (out : list loc)
    (h' : Heap) : Prop :=
  NoDup out
  /\ forall a, In a out ->
       List.length h <= a < List.length h'
       /\ exists item i s,
            In item items
            /\ first_item h (item_url h item) items = Some item
            /\ deref h' a = fused_record (deref h item) i s.

(** The output entries are input objects, and of those only the rank has
    been written. *)
Definition overwritten_in_place (results : list loc) (h : Heap)
    (out : list loc) (h' : Heap) : Prop :=
  incl out results
  /\ List.length h' = List.length h
  /\ (forall l, same_but_rank (deref h l) (deref h' l))
  /\ (forall l, ~ In l out -> deref h' l = deref h l)
  /\ (valid h results -> ranks_of h' out = count_from 1%Z (List.length out)).

(** ** Concrete inputs *)

Definition hit (u : string) (rk : Z) : Result :=
  mkResult (Some "t"%string) (Some u) (Some ""%string) (Some rk)
    (Some "src"%string) None.

(** The two-list scenario: List A at 0 and 1, List B at 2 and 3. *)
Definition heap_ab : Heap :=
  [hit "a.com" 1; hit "b.com" 2; hit "b.com" 1; hit "a.com" 2].

Definition lists_ab : list (list loc) := [[0; 1]; [2; 3]].

(** The single-list scenario. *)
Definition heap_xy : Heap := [hit "x" 1; hit "y" 2].

Definition lists_xy : list (list loc) := [[0; 1]].



(** A result without url. *)
Definition no_url (rk : Z) : Result := hit "" rk.

(** A result without url at address 0 and a result whose url spells the
    key that [deduplicate] gives to the object at address 0. *)
Definition heap_clash : Heap := [no_url 1; hit "__empty__:0" 2].

(** Three results without url. *)
Definition heap_three_empty : Heap := [no_url 1; no_url 2; no_url 3].

(** ** De-duplication as the specification words it *)

(** Two results stand for the same document when both have a url and the
    canonical forms agree, or when neither has a url and they are one and
    the same object. *)
Definition same_document (h : Heap) (r r' : loc) : bool :=
  if has_url h r then
    has_url h r'
    && String.eqb (canonicalize_url (item_url h r))
                  (canonicalize_url (item_url h r'))
  else negb (has_url h r') && Nat.eqb r r'.

(** Keep a result unless an earlier kept one stands for the same
    document. *)
Fixpoint keep_first_document (h : Heap) (results kept : list loc)
    : list loc :=
  match results with
  | [] => []
  | r :: rest =>
      if existsb (same_document h r) kept
      then keep_first_document h rest kept
      else r :: keep_first_document h rest (r :: kept)
  end.

(** No url of the list canonicalises to the key that [deduplicate] makes
    up for a result of the list that has no url. *)
Definition no_clash (h : Heap) (results : list loc) : Prop :=
  forall r r', In r results -> In r' results ->
    has_url h r = false -> has_url h r' = true ->
    canonicalize_url (item_url h r') <> String.append empty_prefix (decimal r).

(** Two raw urls with one canonical form. *)
Definition heap_raw : Heap := [hit "http://a.com" 1; hit "a.com" 1].

(** One list per source, a single hit each. *)
Definition lists_raw : list (list loc) := [[0]; [1]].

(** ** Further notions *)

(** A string of whitespace only. *)
Fixpoint all_space (s : string) : bool :=
  match s with
  | EmptyString => true
  | String c s' => Str.is_space c && all_space s'
  end.

(** The keys of a list of results, in list order. *)
Definition keys_of (h : Heap) (results : list loc) : list string :=
  map (dedup_key h) results.

(** The first result of the list that has the key of [r]. *)
Definition first_with_key (h : Heap) (r : loc) (results : list loc)
    : option loc :=
  find (fun r' => String.eqb (dedup_key h r') (dedup_key h r)) results.

(** Two records that differ at most in [score]. *)
Definition same_but_score (r r' : Result) : Prop :=
  title r' = title r /\ url r' = url r /\ snippet r' = snippet r
  /\ rank r' = rank r /\ source r' = source r.





(* ================================================================== *)
(** * sources.py *)
(* ================================================================== *)

(** The adapters build their results from what a remote service answers.
    The answer is an argument here: the decoded JSON, or [None] when the
    request, the status check or the decoding raised.  [str.title] and
    [str.capitalize] are arguments as well, since they leave the range of
    code points the string model covers. *)

(** [str(i)] *)
Definition str_int (i : Z) : string := NilEmpty.string_of_int (Z.to_int i).

(** [range(lo, hi)] *)
Definition py_range (lo hi : Z) : list Z :=
  map (fun n => (lo + Z.of_nat n)%Z) (seq 0 (Z.to_nat (hi - lo))).

(** [a or d] where [a] is a string or missing *)
Definition str_or (a : option string) (d : string) : string :=
  match a with
  | Some s => if Str.is_empty s then d else s
  | None => d
  end.

(** [a or d] where [a] is a list or missing *)
Definition list_or (A : Type) (a : option (list A)) (d : list A) : list A :=
  match a with
  | Some (x :: l) => x :: l
  | _ => d
  end.

(** [l[:n]]: a negative [n] counts from the end. *)
Definition slice_to (A : Type) (l : list A) (n : Z) : list A :=
  if (0 <=? n)%Z then firstn (Z.to_nat n) l
  else firstn (List.length l - Z.to_nat (- n)) l.

(** ** _mock_source *)

Definition mock_url (name kind : string) (i : Z) : string :=
  String.append "https://example.com/"
    (String.append (Str.lower name)
       (String.append "/" (String.append kind
          (String.append "-" (str_int i))))).

Definition mock_snippet (name query kind : string) (i : Z) : string :=
  String.append name
    (String.append " mock " (String.append kind
       (String.append " result " (String.append (str_int i)
          (String.append " for '" (String.append query "'.")))))).

(** The dict built in one round; [title_of i] stands for the title text,
    which is made with [str.title] and [str.capitalize]. *)
Definition mock_result (title_of : Z -> string) (name query kind : string)
    (decay_shift : Q) (i : Z) : Result :=
  mkResult (Some (title_of i)) (Some (mock_url name kind i))
    (Some (mock_snippet name query kind i)) (Some i) (Some name)
    (Some (1 / (inject_Z i + decay_shift))%Q).

(** One round of the loop; [1.0 / (i + decay_shift)] raises on zero. *)
Definition mock_item (title_of : Z -> string) (name query kind : string)
    (decay_shift : Q) (st : list loc * Heap) (i : Z)
    : option (list loc * Heap) :=
  if Qeq_bool (inject_Z i + decay_shift) 0 then None
  else
    let (bag, h) := st in
    let (r, h') := alloc h (mock_result title_of name query kind decay_shift i) in
    Some (bag ++ [r], h').

Definition mock_source (title_of : Z -> string) (name query : string)
    (top_k : Z) (kind : string) (decay_shift : Q) (h : Heap)
    : option (list loc * Heap) :=
  for_each (mock_item title_of name query kind decay_shift)
    (py_range 1 (top_k + 1)) ([], h).

(** ** serpapi_search *)

Record SerpItem : Type := mkSerpItem {
  it_title : option string;
  it_name : option string;
  it_link : option string;
  it_url : option string;
  it_snippet : option string;
  it_description : option string
}.

Record SerpData : Type := mkSerpData {
  organic_results : option (list SerpItem);
  results_key : option (list SerpItem);
  items_key : option (list SerpItem)
}.

Definition serp_result (label : string) (it : SerpItem) (i : Z) : Result :=
  mkResult (Some (str_or (it_title it) (str_or (it_name it) "(No title)")))
    (Some (str_or (it_link it) (str_or (it_url it) "")))
    (Some (str_or (it_snippet it) (str_or (it_description it) "")))
    (Some i) (Some label) None.

(** [for i, it in enumerate(candidates, start=i): results.append({...})] *)
Fixpoint serpapi_loop (label : string) (candidates : list SerpItem) (i : Z)
    (results : list loc) (h : Heap) : list loc * Heap :=
  match candidates with
  | [] => (results, h)
  | it :: rest =>
      let (r, h') := alloc h (serp_result label it i) in
      serpapi_loop label rest (i + 1)%Z (results ++ [r]) h'
  end.

Definition serp_candidates (data : SerpData) : list SerpItem :=
  list_or (organic_results data)
    (list_or (results_key data) (list_or (items_key data) [])).

Definition serpapi_search (SERPAPI_KEY : string)
    (capitalize : string -> string) (response : option SerpData)
    (engine : string) (top_k : Z) (h : Heap) : option (list loc * Heap) :=
  if Str.is_empty SERPAPI_KEY then None
  else
    match response with
    | None => None
    | Some data =>
        Some (serpapi_loop (String.append "SerpApi/" (capitalize engine))
                (slice_to (serp_candidates data) top_k) 1%Z [] h)
    end.

(** ** google_cse_search *)

Record CseItem : Type := mkCseItem {
  cse_title : option string;
  cse_link : option string;
  cse_snippet : option string;
  cse_htmlSnippet : option string
}.

Definition cse_result (it : CseItem) (rk : Z) : Result :=
  mkResult (Some (str_or (cse_title it) "(No title)"))
    (Some (str_or (cse_link it) ""))
    (Some (str_or (cse_snippet it) (str_or (cse_htmlSnippet it) "")))
    (Some rk) (Some "Google CSE"%string) None.

(** [for it in items: results.append({..., "rank": len(results) + 1})] *)
Fixpoint cse_append (items : list CseItem) (results : list loc) (h : Heap)
    : list loc * Heap :=
  match items with
  | [] => (results, h)
  | it :: rest =>
      let (r, h') :=
        alloc h (cse_result it (Z.of_nat (List.length results) + 1)%Z) in
      cse_append rest (results ++ [r]) h'
  end.

Inductive outcome (A : Type) : Type :=
  | Returned (a : A)
  | Raised
  | OutOfFuel.

Arguments Returned {A} a.
Arguments Raised {A}.
Arguments OutOfFuel {A}.

(** The page answered for [num] and [start]: the value of its ["items"]
    key, or [None] when the request raised. *)
Definition CseFetch : Type := Z -> Z -> option (option (list CseItem)).

(** The [while] loop, one round per unit of fuel. *)
Fixpoint cse_loop (fuel : nat) (fetch : CseFetch) (results : list loc)
    (h : Heap) (remaining start : Z) : outcome (list loc * Heap) :=
  if (remaining >? 0)%Z then
    match fuel with
    | O => OutOfFuel
    | S fuel' =>
        let num := Z.min 10 remaining in
        match fetch num start with
        | None => Raised
        | Some data =>
            let items := list_or data [] in
            let (results', h') := cse_append items results h in
            let got := Z.of_nat (List.length items) in
            if (got =? 0)%Z then Returned (results', h')
            else
              let remaining' := (remaining - got)%Z in
              let start' := (start + got)%Z in
              if (start' >? 100)%Z then Returned (results', h')
              else cse_loop fuel' fetch results' h' remaining' start'
        end
    end
  else Returned (results, h).

(** Every round but the last takes at least one from [remaining], so
    [top_k] rounds are enough. *)
Definition google_cse_search (fetch : CseFetch) (top_k : Z) (h : Heap)
    : outcome (list loc * Heap) :=
  if (top_k <=? 0)%Z then Returned ([], h)
  else cse_loop (Z.to_nat top_k) fetch [] h top_k 1%Z.

(** ** get_results_from_sources *)

(** config.py *)
Definition ENABLED_ENGINES : list string :=
  ["google_cse"; "serpapi_google"; "serpapi_bing"; "serpapi_duckduckgo";
   "serpapi_yahoo"]%string.

(** The three values config.py reads from the environment. *)
Record Config : Type := mkConfig {
  SERPAPI_KEY : string;
  GOOGLE_CSE_API_KEY : string;
  GOOGLE_CSE_CX : string
}.

(** What the remote services answer. *)
Record Network : Type := mkNetwork {
  serp_response : string -> option SerpData;
  cse_fetch : CseFetch
}.

Definition serpapi_map : list (string * string) :=
  [("serpapi_google", "google"); ("serpapi_bing", "bing");
   ("serpapi_duckduckgo", "duckduckgo"); ("serpapi_yahoo", "yahoo")]%string.

(** What the dispatcher carries along: [bags], [used_any], the heap. *)
Definition dispatch_state : Type := (list (list loc) * bool * Heap)%type.

(** One round of the loop over [serpapi_map]; an adapter that raises is
    skipped. *)
Definition serpapi_round (cfg : Config) (capitalize : string -> string)
    (net : Network) (top_k : Z) (st : dispatch_state)
    (entry : string * string) : dispatch_state :=
  let '(bags, used_any, h) := st in
  let (cfg_name, engine_name) := entry in
  if set_mem cfg_name ENABLED_ENGINES then
    match serpapi_search (SERPAPI_KEY cfg) capitalize
            (serp_response net engine_name) engine_name top_k h with
    | Some (bag, h') => (bags ++ [bag], true, h')
    | None => st
    end
  else st.

Definition cse_round (cfg : Config) (net : Network) (top_k : Z)
    (st : dispatch_state) : dispatch_state :=
  let '(bags, used_any, h) := st in
  if set_mem "google_cse" ENABLED_ENGINES
     && negb (Str.is_empty (GOOGLE_CSE_API_KEY cfg))
     && negb (Str.is_empty (GOOGLE_CSE_CX cfg))
  then
    match google_cse_search (cse_fetch net) top_k h with
    | Returned (bag, h') => (bags ++ [bag], true, h')
    | _ => st
    end
  else st.

Definition get_results_from_sources (cfg : Config)
    (capitalize : string -> string) (title_of : Z -> string)
    (net : Network) (query : string) (top_k : Z) (h : Heap)
    : option (list (list loc) * Heap) :=
  let st0 : dispatch_state := ([], false, h) in
  let st1 :=
    if negb (Str.is_empty (SERPAPI_KEY cfg))
    then fold_left (serpapi_round cfg capitalize net top_k) serpapi_map st0
    else st0 in
  let '(bags, used_any, h2) := cse_round cfg net top_k st1 in
  if negb used_any then
    match mock_source title_of "Alpha" query top_k "guide" 2%Q h2 with
    | Some (bag, h3) => Some (bags ++ [bag], h3)
    | None => None
    end
  else Some (bags, h2).

(* ================================================================== *)
(** * app.py: fuse, then de-duplicate *)
(* ================================================================== *)

(** [s.startswith(p)] *)
Definition startswith (s p : string) : bool :=
  match Str.drop_prefix p s with Some _ => true | None => false end.

(** Steps 2 and 3 of the search flow. *)
Definition fuse_and_dedupe (fusion_method : string) (rrf_k : Z)
    (do_dedupe : bool) (ranked_lists : list (list loc)) (h : Heap)
    : option (list loc * Heap) :=
  match (if startswith fusion_method "Reciprocal"
         then rrf_fusion ranked_lists rrf_k h
         else combsum_fusion ranked_lists h) with
  | None => None
  | Some (fused, h1) =>
      if do_dedupe then Some (deduplicate fused h1) else Some (fused, h1)
  end.

(** ** Notions for the adapters *)

(** A ranked list as an adapter returns it: allocated results whose rank
    fields are 1, 2, ... in list order. *)
Definition ranked (h : Heap) (bag : list loc) : Prop :=
  valid h bag /\ ranks_of h bag = count_from 1%Z (List.length bag).

(** [h'] is [h] with new objects behind it, and [bag] are these. *)
Definition allocated (h : Heap) (bag : list loc) (h' : Heap) : Prop :=
  exists recs, h' = h ++ recs /\ bag = seq (List.length h) (List.length recs).

(** The canonical urls of a list of results. *)
Definition canonical_urls (h : Heap) (ls : list loc) : list string :=
  map (fun a => canonicalize_url (item_url h a)) ls.

(** What every record made by a remote adapter looks like: a url (maybe
    empty), a rank, no score. *)
Definition adapter_record (r : Result) : Prop :=
  score r = None /\ url r <> None /\ rank r <> None.

(** A page never holds more items than were asked for. *)
Definition honours_num (fetch : CseFetch) : Prop :=
  forall num start items,
    fetch num start = Some (Some items) ->
    (Z.of_nat (List.length items) <= num)%Z.

(** Sample answers of the remote services. *)
Definition serp_item (link : string) : SerpItem :=
  mkSerpItem (Some ""%string) None (Some link) None None (Some "d"%string).

Definition serp_data : SerpData :=
  mkSerpData (Some []) (Some [serp_item "a"; serp_item "b"; serp_item "c"])
    None.

Definition cse_item : CseItem :=
  mkCseItem None (Some "l"%string) None (Some "h"%string).


(** One item per page, as long as one is asked for. *)
Definition cse_single : CseFetch :=
  fun num _ => if (1 <=? num)%Z then Some (Some [cse_item]) else Some None.

(** What holds of the dispatcher's state all along: the heap it started
    from is untouched, every bag is a ranked list, there are at most [n]
    bags, and [used_any] says whether there is one. *)
Definition dispatched (h0 : Heap) (n : nat) (st : dispatch_state) : Prop :=
  let '(bags, used_any, h) := st in
  input_untouched h0 h
  /\ Forall (ranked h) bags
  /\ List.length bags <= n
  /\ (used_any = true <-> bags <> []).

(** No remote adapter that is tried returns. *)
Definition all_remote_fail (cfg : Config) (net : Network) (top_k : Z)
    : Prop :=
  (SERPAPI_KEY cfg = EmptyString
   \/ forall engine, serp_response net engine = None)
  /\ (GOOGLE_CSE_API_KEY cfg = EmptyString
      \/ GOOGLE_CSE_CX cfg = EmptyString
      \/ forall h, google_cse_search (cse_fetch net) top_k h = Raised).

(** A configuration with keys and a network whose SerpApi answers. *)
Definition config_keys : Config := mkConfig "key" "key" "cx".
Definition config_none : Config := mkConfig "" "" "".


Definition net_down : Network := mkNetwork (fun _ => None) (fun _ _ => None).

(* ================================================================== *)
(** * Theorems *)
(* ================================================================== *)

(* ------------------------------------------------------------------ *)
(** ** canonicalize_url against the six steps of the specification *)
(* ------------------------------------------------------------------ *)

Section Canonicalize.

Import Str.
Local Open Scope string_scope.

Lemma drop_prefix_app (p q s : string) :
  drop_prefix (p ++ q) s =
  match drop_prefix p s with
  | Some r => drop_prefix q r
  | None => None
  end.
Proof.
  revert s; induction p as [|a p IH]; intros s; simpl; [reflexivity|].
  destruct s as [|b s]; [reflexivity|].
  destruct (Ascii.eqb a b); [apply IH | reflexivity].
Qed.

(** The anchored regular expression strips exactly what the two words
    "scheme, then www. behind the scheme" strip. *)
Lemma sub_scheme_spec (u : string) :
  Re.sub_scheme u = CanonSpec.strip_www (CanonSpec.strip_scheme u).
Proof.
  unfold Re.sub_scheme, CanonSpec.strip_scheme, CanonSpec.strip_www.
  change "https://" with ("http" ++ ("s" ++ "://")).
  change "http://" with ("http" ++ "://").
  rewrite !drop_prefix_app.
  destruct (drop_prefix "http" u) as [r|]; [|reflexivity].
  rewrite drop_prefix_app.
  destruct (drop_prefix "s" r) as [r'|] eqn:Hs.
  - destruct (drop_prefix "://" r') as [rest|]; [reflexivity|].
    destruct r as [|c r]; [discriminate|]. cbn [drop_prefix] in Hs.
    destruct (Ascii.eqb_spec "s" c) as [<-|]; [|discriminate].
    reflexivity.
  - destruct (drop_prefix "://" r) as [rest|]; reflexivity.
Qed.

Lemma lower_char_newline (c : ascii) :
  is_newline (lower_char c) = is_newline c.
Proof.
  destruct c as [[] [] [] [] [] [] [] []]; vm_compute; reflexivity.
Qed.

Lemma has_newline_lower (s : string) : has_newline (lower s) = has_newline s.
Proof.
  induction s as [|c s IH]; simpl; [reflexivity|].
  now rewrite lower_char_newline, IH.
Qed.

Lemma has_newline_drop_prefix (p s r : string) :
  drop_prefix p s = Some r -> has_newline s = false -> has_newline r = false.
Proof.
  revert s; induction p as [|a p IH]; intros s; simpl.
  - now intros [= ->].
  - destruct s as [|b s]; [discriminate|].
    destruct (Ascii.eqb a b); [|discriminate].
    simpl. intros H Hn. apply orb_false_iff in Hn. now apply (IH s).
Qed.

Lemma has_newline_sub_scheme (u : string) :
  has_newline u = false -> has_newline (Re.sub_scheme u) = false.
Proof.
  intros Hn. unfold Re.sub_scheme.
  destruct (drop_prefix "http" u) as [r|] eqn:H1; [|exact Hn].
  pose proof (has_newline_drop_prefix _ _ H1 Hn) as Hr.
  assert (Ha : has_newline
            (match drop_prefix "s" r with Some r' => r' | None => r end) = false).
  { destruct (drop_prefix "s" r) eqn:H2; [|exact Hr].
    exact (has_newline_drop_prefix _ _ H2 Hr). }
  destruct (drop_prefix "://" _) as [rest|] eqn:H3; [|exact Hn].
  pose proof (has_newline_drop_prefix _ _ H3 Ha) as Hrest.
  destruct (drop_prefix "www." rest) eqn:H4; [|exact Hrest].
  exact (has_newline_drop_prefix _ _ H4 Hrest).
Qed.

Lemma dot_star_dollar_no_newline (s : string) :
  has_newline s = false ->
  Re.dot_star_dollar s = true /\ Re.after_dot_star s = "".
Proof.
  induction s as [|c s IH]; simpl; [now split|].
  intros H. apply orb_false_iff in H. destruct H as [Hc Hs].
  rewrite Hc. now apply IH.
Qed.

(** On a string without newline the second regular expression cuts at the
    first question mark or hash. *)
Lemma sub_query_no_newline (u : string) :
  has_newline u = false -> Re.sub_query u = CanonSpec.truncate_at_mark u.
Proof.
  induction u as [|c u IH]; simpl; [reflexivity|].
  intros H. apply orb_false_iff in H. destruct H as [_ Hu].
  destruct (dot_star_dollar_no_newline u Hu) as [-> ->].
  rewrite andb_true_r. destruct (is_query_mark c); [reflexivity|].
  now rewrite IH.
Qed.

(** A url that, once trimmed, holds no newline is canonicalised exactly by
    the six steps of the specification. *)
Lemma canonicalize_url_refines (u : string) :
  has_newline (strip u) = false ->
  canonicalize_url u = CanonSpec.canonicalize u.
Proof.
  intros Hn. unfold canonicalize_url, CanonSpec.canonicalize,
    CanonSpec.strip_one_slash.
  rewrite <- sub_scheme_spec, sub_query_no_newline; [reflexivity|].
  apply has_newline_sub_scheme. now rewrite has_newline_lower.
Qed.

Lemma canonicalize_url_refines_witness :
  canonicalize_url "  https://www.Example.com/Page/?x=1#frag " =
  CanonSpec.canonicalize "  https://www.Example.com/Page/?x=1#frag ".
Proof. apply canonicalize_url_refines. reflexivity. Defined.

(** The two urls of property P5 have the same canonical form. *)
Lemma canonicalize_url_p5 :
  canonicalize_url "HTTPS://WWW.Example.com/page/" = "example.com/page"
  /\ canonicalize_url "http://example.com/page" = "example.com/page".
Proof. split; reflexivity. Qed.

(** C6 (fails on the code): the claim has every input cut at its first
    question mark or hash, and the docstring says query parameters are
    dropped.  [url_with_newline] has its first question mark at position 1,
    so the six steps give [a]; the code returns the url unchanged, because
    the dot of the second regular expression does not run over the line
    break and the dollar does not hold before it. *)
Theorem canonicalize_url_keeps_query_before_newline :
  canonicalize_url url_with_newline = url_with_newline
  /\ CanonSpec.canonicalize url_with_newline = "a"
  /\ canonicalize_url url_with_newline <> CanonSpec.canonicalize url_with_newline.
Proof. repeat split; try reflexivity. discriminate. Qed.

End Canonicalize.

(* ------------------------------------------------------------------ *)
(** ** The heap *)
(* ------------------------------------------------------------------ *)

Section HeapFacts.

Lemma length_store (h : Heap) (l : loc) (r : Result) :
  List.length (store h l r) = List.length h.
Proof.
  revert l; induction h as [|x h IH]; intros [|l]; simpl; auto.
Qed.

Lemma store_out_of_range (h : Heap) (l : loc) (r : Result) :
  List.length h <= l -> store h l r = h.
Proof.
  revert l; induction h as [|x h IH]; intros [|l]; simpl; intros H;
    try reflexivity; try lia.
  f_equal. apply IH. lia.
Qed.

Lemma deref_store_same (h : Heap) (l : loc) (r : Result) :
  l < List.length h -> deref (store h l r) l = r.
Proof.
  unfold deref. revert l; induction h as [|x h IH]; intros [|l]; simpl;
    intros H; try lia; try reflexivity.
  apply IH. lia.
Qed.

Lemma deref_store_other (h : Heap) (l l' : loc) (r : Result) :
  l <> l' -> deref (store h l r) l' = deref h l'.
Proof.
  unfold deref. revert l l'; induction h as [|x h IH]; intros [|l] [|l'];
    simpl; intros H; try reflexivity; try congruence.
  apply IH. congruence.
Qed.

Lemma store_store_same (h : Heap) (l : loc) (r r' : Result) :
  store (store h l r) l r' = store h l r'.
Proof.
  revert l; induction h as [|x h IH]; intros [|l]; simpl; try reflexivity.
  f_equal. apply IH.
Qed.

Lemma store_store_swap (h : Heap) (a b : loc) (x y : Result) :
  a <> b -> store (store h a x) b y = store (store h b y) a x.
Proof.
  revert a b; induction h as [|z h IH]; intros [|a] [|b]; simpl; intros H;
    try reflexivity; try congruence.
  f_equal. apply IH. congruence.
Qed.

Lemma deref_app_old (h h' : Heap) (l : loc) :
  l < List.length h -> deref (h ++ h') l = deref h l.
Proof. intros H. unfold deref. now apply app_nth1. Qed.


Lemma length_setitem_rank (h : Heap) (l : loc) (i : Z) :
  List.length (setitem_rank h l i) = List.length h.
Proof. apply length_store. Qed.

Lemma deref_setitem_rank_other (h : Heap) (l l' : loc) (i : Z) :
  l <> l' -> deref (setitem_rank h l i) l' = deref h l'.
Proof. apply deref_store_other. Qed.

Lemma deref_setitem_rank_same (h : Heap) (l : loc) (i : Z) :
  l < List.length h -> deref (setitem_rank h l i) l = with_rank (deref h l) i.
Proof. apply deref_store_same. Qed.

(** Writing a rank changes no other field of any object. *)
Lemma setitem_rank_frame (h : Heap) (l l' : loc) (i : Z) :
  same_but_rank (deref h l') (deref (setitem_rank h l i) l').
Proof.
  destruct (Nat.eq_dec l l') as [<-|Hne].
  - destruct (Nat.lt_ge_cases l (List.length h)) as [Hlt|Hge].
    + rewrite deref_setitem_rank_same by exact Hlt. repeat split.
    + unfold setitem_rank. rewrite store_out_of_range by exact Hge.
      repeat split.
  - rewrite deref_setitem_rank_other by exact Hne. repeat split.
Qed.

Lemma setitem_rank_twice (h : Heap) (l : loc) (i : Z) :
  setitem_rank (setitem_rank h l i) l i = setitem_rank h l i.
Proof.
  destruct (Nat.lt_ge_cases l (List.length h)) as [Hlt|Hge].
  - unfold setitem_rank at 1. rewrite deref_setitem_rank_same by exact Hlt.
    unfold setitem_rank. now rewrite store_store_same.
  - unfold setitem_rank at 2. rewrite store_out_of_range by exact Hge.
    reflexivity.
Qed.

Lemma setitem_rank_swap (h : Heap) (a b : loc) (i j : Z) :
  a <> b ->
  setitem_rank (setitem_rank h a i) b j = setitem_rank (setitem_rank h b j) a i.
Proof.
  intros Hne. unfold setitem_rank.
  rewrite (deref_store_other h _ Hne).
  rewrite (deref_store_other h _ (not_eq_sym Hne)).
  now apply store_store_swap.
Qed.

End HeapFacts.

(* ------------------------------------------------------------------ *)
(** ** deduplicate *)
(* ------------------------------------------------------------------ *)

Section Deduplicate.

Lemma set_mem_In (k : string) (seen : list string) :
  set_mem k seen = true <-> In k seen.
Proof.
  unfold set_mem. rewrite existsb_exists. split.
  - intros [x [Hx He]]. apply String.eqb_eq in He. now subst.
  - intros H. exists k. split; [exact H | apply String.eqb_refl].
Qed.

Lemma set_mem_not_In (k : string) (seen : list string) :
  set_mem k seen = false <-> ~ In k seen.
Proof.
  rewrite <- set_mem_In. destruct (set_mem k seen); split; congruence.
Qed.

(** The first loop appends to [unique] what [keep_first] keeps. *)
Lemma dedup_loop_keep_first (h : Heap) (results : list loc) :
  forall seen unique,
    dedup_loop h results seen unique = unique ++ keep_first h results seen.
Proof.
  induction results as [|r rest IH]; intros seen unique; simpl.
  - now rewrite app_nil_r.
  - destruct (set_mem (dedup_key h r) seen).
    + apply IH.
    + rewrite IH, <- app_assoc. reflexivity.
Qed.

Lemma deduplicate_unfold (results : list loc) (h : Heap) :
  deduplicate results h =
  (keep_first h results [], assign_ranks (keep_first h results []) 1%Z h).
Proof.
  unfold deduplicate. now rewrite dedup_loop_keep_first.
Qed.

Lemma keep_first_In (h : Heap) (results : list loc) :
  forall seen r, In r (keep_first h results seen) -> In r results.
Proof.
  induction results as [|x rest IH]; intros seen r; simpl; [tauto|].
  destruct (set_mem (dedup_key h x) seen); simpl.
  - intros H. right. eapply IH, H.
  - intros [H|H]; [now left | right; eapply IH, H].
Qed.

Lemma keep_first_key_fresh (h : Heap) (results : list loc) :
  forall seen r,
    In r (keep_first h results seen) -> ~ In (dedup_key h r) seen.
Proof.
  induction results as [|x rest IH]; intros seen r; simpl; [tauto|].
  destruct (set_mem (dedup_key h x) seen) eqn:Hm; simpl.
  - apply IH.
  - intros [<-|H]; [now apply set_mem_not_In|].
    intros Hin. apply (IH _ _ H). now right.
Qed.

(** No two survivors share a key. *)
Lemma keep_first_keys_NoDup (h : Heap) (results : list loc) :
  forall seen, NoDup (map (dedup_key h) (keep_first h results seen)).
Proof.
  induction results as [|x rest IH]; intros seen; simpl; [constructor|].
  destruct (set_mem (dedup_key h x) seen) eqn:Hm; simpl; [apply IH|].
  constructor; [|apply IH].
  intros Hin. apply in_map_iff in Hin. destruct Hin as [y [Hy Hin]].
  apply keep_first_key_fresh in Hin. apply Hin. rewrite Hy. now left.
Qed.

Lemma keep_first_NoDup (h : Heap) (results : list loc) (seen : list string) :
  NoDup (keep_first h results seen).
Proof. eapply NoDup_map_inv, keep_first_keys_NoDup. Qed.

(** Every key of the input is the key of a survivor, unless seen before. *)
Lemma keep_first_covers (h : Heap) (results : list loc) :
  forall seen r,
    In r results -> ~ In (dedup_key h r) seen ->
    In (dedup_key h r) (map (dedup_key h) (keep_first h results seen)).
Proof.
  induction results as [|x rest IH]; intros seen r; simpl; [tauto|].
  intros Hin Hfresh.
  destruct (set_mem (dedup_key h x) seen) eqn:Hm; simpl.
  - destruct Hin as [->|Hin]; [|now apply IH].
    apply set_mem_In in Hm. contradiction.
  - destruct (string_dec (dedup_key h x) (dedup_key h r)) as [He|Hne];
      [now left | right].
    destruct Hin as [->|Hin]; [congruence|].
    apply IH; [exact Hin|]. intros [H|H]; contradiction.
Qed.

(** The loop reads the heap only through the keys. *)
Lemma keep_first_ext (h h' : Heap) (results : list loc) :
  (forall r, dedup_key h' r = dedup_key h r) ->
  forall seen, keep_first h' results seen = keep_first h results seen.
Proof.
  intros Hk. induction results as [|x rest IH]; intros seen; simpl;
    [reflexivity|].
  rewrite Hk. destruct (set_mem (dedup_key h x) seen); now rewrite IH.
Qed.

(** A list whose keys are pairwise distinct and unseen is kept whole. *)
Lemma keep_first_fixed (h : Heap) (ls : list loc) :
  forall seen,
    NoDup (map (dedup_key h) ls) ->
    (forall r, In r ls -> ~ In (dedup_key h r) seen) ->
    keep_first h ls seen = ls.
Proof.
  induction ls as [|x rest IH]; intros seen Hnd Hfresh; simpl; [reflexivity|].
  inversion Hnd as [|k ks Hx Hrest]; subst.
  assert (Hm : set_mem (dedup_key h x) seen = false).
  { apply set_mem_not_In, Hfresh. now left. }
  rewrite Hm. f_equal. apply IH; [exact Hrest|].
  intros r Hr [He|Hin].
  - apply Hx. rewrite He. now apply in_map.
  - apply (Hfresh r); [now right | exact Hin].
Qed.

Lemma same_but_rank_refl (r : Result) : same_but_rank r r.
Proof. repeat split. Qed.

Lemma same_but_rank_trans (a b c : Result) :
  same_but_rank a b -> same_but_rank b c -> same_but_rank a c.
Proof.
  unfold same_but_rank. intros (?&?&?&?&?) (?&?&?&?&?).
  repeat split; congruence.
Qed.

(** The second loop writes ranks and nothing else. *)
Lemma assign_ranks_frame (unique : list loc) :
  forall i h l, same_but_rank (deref h l) (deref (assign_ranks unique i h) l).
Proof.
  induction unique as [|r rest IH]; intros i h l; simpl.
  - apply same_but_rank_refl.
  - eapply same_but_rank_trans; [apply (setitem_rank_frame h r l i) | apply IH].
Qed.

Lemma length_assign_ranks (unique : list loc) :
  forall i h, List.length (assign_ranks unique i h) = List.length h.
Proof.
  induction unique as [|r rest IH]; intros i h; simpl; [reflexivity|].
  now rewrite IH, length_setitem_rank.
Qed.

Lemma assign_ranks_other (unique : list loc) :
  forall i h l, ~ In l unique -> deref (assign_ranks unique i h) l = deref h l.
Proof.
  induction unique as [|r rest IH]; intros i h l Hl; simpl; [reflexivity|].
  rewrite IH by (intros H; apply Hl; now right).
  apply deref_setitem_rank_other. intros ->. apply Hl. now left.
Qed.

(** The object at position [j] of the list receives rank [i + j]. *)
Lemma assign_ranks_nth (unique : list loc) :
  forall i h j l,
    NoDup unique -> valid h unique -> nth_error unique j = Some l ->
    rank (deref (assign_ranks unique i h) l) = Some (i + Z.of_nat j)%Z.
Proof.
  induction unique as [|r rest IH]; intros i h j l Hnd Hv Hj.
  - destruct j; discriminate.
  - inversion Hnd as [|? ? Hr Hrest]; subst.
    inversion Hv as [|? ? Hlt Hvrest]; subst.
    destruct j as [|j]; simpl in Hj |- *.
    + injection Hj as ->. rewrite assign_ranks_other by exact Hr.
      rewrite deref_setitem_rank_same by exact Hlt. simpl.
      f_equal. lia.
    + rewrite (IH (i + 1)%Z _ j l Hrest); [f_equal; lia | | exact Hj].
      unfold valid in *. rewrite Forall_forall in *. intros x Hx.
      rewrite length_setitem_rank. now apply Hvrest.
Qed.

Lemma ranks_of_assign_ranks (unique : list loc) :
  forall i h,
    NoDup unique -> valid h unique ->
    ranks_of (assign_ranks unique i h) unique =
    count_from i (List.length unique).
Proof.
  induction unique as [|r rest IH]; intros i h Hnd Hv; [reflexivity|].
  inversion Hnd as [|? ? Hr Hrest]; subst.
  inversion Hv as [|? ? Hlt Hvrest]; subst.
  unfold ranks_of in *. simpl. f_equal.
  - rewrite assign_ranks_other by exact Hr.
    now rewrite deref_setitem_rank_same.
  - apply IH; [exact Hrest|].
    unfold valid in *. rewrite Forall_forall in *. intros x Hx.
    rewrite length_setitem_rank. now apply Hvrest.
Qed.

Lemma dedup_key_same_url (h h' : Heap) :
  (forall l, same_but_rank (deref h l) (deref h' l)) ->
  forall r, dedup_key h' r = dedup_key h r.
Proof.
  intros H r. unfold dedup_key, get_url.
  destruct (H r) as (_ & -> & _). reflexivity.
Qed.

Lemma setitem_rank_assign_ranks (unique : list loc) :
  forall i h l j,
    ~ In l unique ->
    setitem_rank (assign_ranks unique i h) l j =
    assign_ranks unique i (setitem_rank h l j).
Proof.
  induction unique as [|r rest IH]; intros i h l j Hl; simpl; [reflexivity|].
  rewrite IH by (intros H; apply Hl; now right).
  f_equal. apply setitem_rank_swap. intros ->. apply Hl. now left.
Qed.

(** Writing the same ranks a second time changes nothing. *)
Lemma assign_ranks_twice (unique : list loc) :
  forall i h,
    NoDup unique ->
    assign_ranks unique i (assign_ranks unique i h) = assign_ranks unique i h.
Proof.
  induction unique as [|r rest IH]; intros i h Hnd; simpl; [reflexivity|].
  inversion Hnd as [|? ? Hr Hrest]; subst.
  rewrite setitem_rank_assign_ranks by exact Hr.
  rewrite setitem_rank_twice. now apply IH.
Qed.

(** C7: de-duplicating the output of [deduplicate] again, in the heap the
    first call left behind, returns the same list of results and leaves
    every record as it is. *)
Theorem deduplicate_idempotent (results : list loc) (h : Heap) :
  deduplicate (fst (deduplicate results h)) (snd (deduplicate results h))
  = deduplicate results h.
Proof.
  rewrite (deduplicate_unfold results h). cbn [fst snd].
  set (out := keep_first h results []).
  set (h' := assign_ranks out 1%Z h).
  rewrite deduplicate_unfold.
  assert (Hk : forall r, dedup_key h' r = dedup_key h r).
  { apply dedup_key_same_url. intros l. apply assign_ranks_frame. }
  assert (Hout : keep_first h' out [] = out).
  { rewrite (keep_first_ext h h' out Hk).
    apply keep_first_fixed; [apply keep_first_keys_NoDup | intros r _ []]. }
  rewrite Hout. f_equal.
  apply assign_ranks_twice, keep_first_NoDup.
Qed.

End Deduplicate.

(* ------------------------------------------------------------------ *)
(** ** minmax_normalize_scores *)
(* ------------------------------------------------------------------ *)

Section MinMax.

Local Open Scope Q_scope.

Lemma Qle_bool_false (x y : Q) : Qle_bool x y = false -> y < x.
Proof.
  intros H. apply Qnot_le_lt. intros Hle.
  apply Qle_bool_iff in Hle. congruence.
Qed.











(** An unallocated reference reads as the empty dict, which has no score. *)
Lemma scored_is_allocated (h : Heap) (r : loc) (s : Q) :
  score (deref h r) = Some s -> (r < List.length h)%nat.
Proof.
  intros H. destruct (Nat.lt_ge_cases r (List.length h)) as [Hlt|Hge];
    [exact Hlt|].
  unfold deref in H. rewrite nth_overflow in H by exact Hge. discriminate.
Qed.

Lemma deref_setitem_score_same (h : Heap) (l : loc) (x : Q) :
  (l < List.length h)%nat ->
  deref (setitem_score h l x) l = with_score (deref h l) x.
Proof. apply deref_store_same. Qed.

Lemma deref_setitem_score_other (h : Heap) (l l' : loc) (x : Q) :
  l <> l' -> deref (setitem_score h l x) l' = deref h l'.
Proof. apply deref_store_other. Qed.

Lemma score_setitem_score_None (h : Heap) (l r : loc) (x : Q) :
  score (deref h l) <> None -> score (deref h r) = None ->
  score (deref (setitem_score h l x) r) = None.
Proof.
  intros Hl Hr. destruct (Nat.eq_dec l r) as [->|Hne]; [contradiction|].
  now rewrite deref_setitem_score_other.
Qed.

(** *** The loop that writes 1.0 *)

Lemma set_all_one_other (results : list loc) :
  forall h r, ~ In r results -> deref (set_all_one results h) r = deref h r.
Proof.
  induction results as [|x rest IH]; intros h r Hr; simpl; [reflexivity|].
  assert (Hne : x <> r) by (intros ->; apply Hr; now left).
  assert (Hrest : ~ In r rest) by (intros H; apply Hr; now right).
  destruct (score (deref h x)); rewrite IH by exact Hrest;
    [now apply deref_setitem_score_other | reflexivity].
Qed.

Lemma set_all_one_None (results : list loc) :
  forall h r,
    score (deref h r) = None -> score (deref (set_all_one results h) r) = None.
Proof.
  induction results as [|x rest IH]; intros h r Hr; simpl; [exact Hr|].
  destruct (score (deref h x)) eqn:E; apply IH; [|exact Hr].
  apply score_setitem_score_None; [congruence | exact Hr].
Qed.


(** *** The loop that rescales *)

Lemma rescale_other (lo rng : Q) (results : list loc) :
  forall h r, ~ In r results -> deref (rescale lo rng results h) r = deref h r.
Proof.
  induction results as [|x rest IH]; intros h r Hr; simpl; [reflexivity|].
  assert (Hne : x <> r) by (intros ->; apply Hr; now left).
  assert (Hrest : ~ In r rest) by (intros H; apply Hr; now right).
  destruct (score (deref h x)); rewrite IH by exact Hrest;
    [now apply deref_setitem_score_other | reflexivity].
Qed.

Lemma rescale_None (lo rng : Q) (results : list loc) :
  forall h r,
    score (deref h r) = None ->
    score (deref (rescale lo rng results h) r) = None.
Proof.
  induction results as [|x rest IH]; intros h r Hr; simpl; [exact Hr|].
  destruct (score (deref h x)) eqn:E; apply IH; [|exact Hr].
  apply score_setitem_score_None; [congruence | exact Hr].
Qed.


(** *** Arithmetic of the rescaling *)




(** *** The three cases *)






End MinMax.

(* ------------------------------------------------------------------ *)
(** ** Dicts, loops and first-seen order *)
(* ------------------------------------------------------------------ *)

Section DictFacts.

Variable V : Type.

Lemma dict_get_set_same (d : dict V) (k : string) (v : V) :
  dict_get (dict_set d k v) k = Some v.
Proof.
  induction d as [|[k' v'] d IH]; simpl.
  - now rewrite String.eqb_refl.
  - destruct (String.eqb k' k) eqn:E; simpl; rewrite E; auto.
Qed.

Lemma dict_get_set_other (d : dict V) (k k' : string) (v : V) :
  k <> k' -> dict_get (dict_set d k v) k' = dict_get d k'.
Proof.
  intros Hne. induction d as [|[k0 v0] d IH]; simpl.
  - destruct (String.eqb_spec k k'); [contradiction | reflexivity].
  - destruct (String.eqb_spec k0 k) as [->|Hk]; simpl.
    + destruct (String.eqb_spec k k'); [contradiction | reflexivity].
    + now rewrite IH.
Qed.

Lemma dict_mem_keys (d : dict V) (k : string) :
  dict_mem d k = set_mem k (keys d).
Proof.
  unfold dict_mem, set_mem, keys.
  induction d as [|[k' v'] d IH]; simpl; [reflexivity|].
  rewrite (String.eqb_sym k k').
  destruct (String.eqb k' k); simpl; [reflexivity | exact IH].
Qed.

Lemma keys_dict_set (d : dict V) (k : string) (v : V) :
  keys (dict_set d k v) = add_key (keys d) k.
Proof.
  unfold add_key, set_mem, keys.
  induction d as [|[k' v'] d IH]; simpl; [reflexivity|].
  rewrite (String.eqb_sym k k').
  destruct (String.eqb k' k); simpl; [reflexivity|].
  rewrite IH. now destruct (existsb (String.eqb k) (map fst d)).
Qed.

Lemma dict_get_In_keys (d : dict V) (k : string) :
  In k (keys d) <-> exists v, dict_get d k = Some v.
Proof.
  unfold keys. induction d as [|[k' v'] d IH]; simpl.
  - split; [tauto | intros [v Hv]; discriminate].
  - destruct (String.eqb_spec k' k) as [->|Hne].
    + split; [eauto | auto].
    + rewrite <- IH. split; [intros [H|H]; [contradiction | exact H] | auto].
Qed.


End DictFacts.

Section LoopFacts.

Variables S A : Type.
Variable body : S -> A -> option S.

Lemma for_each_app (xs ys : list A) (st : S) :
  for_each body (xs ++ ys) st =
  match for_each body xs st with
  | Some st' => for_each body ys st'
  | None => None
  end.
Proof.
  revert st; induction xs as [|x xs IH]; intros st; simpl; [reflexivity|].
  destruct (body st x); [apply IH | reflexivity].
Qed.

(** Two nested loops are one loop over the concatenation. *)
Lemma for_each_concat (xss : list (list A)) (st : S) :
  for_each (fun st' xs => for_each body xs st') xss st =
  for_each body (List.concat xss) st.
Proof.
  revert st; induction xss as [|xs xss IH]; intros st; simpl; [reflexivity|].
  rewrite for_each_app. destruct (for_each body xs st); [apply IH | reflexivity].
Qed.

End LoopFacts.

Section FirstSeen.

Lemma add_key_In (ks : list string) (u v : string) :
  In v (add_key ks u) <-> In v ks \/ v = u.
Proof.
  unfold add_key. destruct (set_mem u ks) eqn:E.
  - apply set_mem_In in E. split; [auto | intros [H| ->]; auto].
  - rewrite in_app_iff. simpl. intuition.
Qed.

Lemma add_key_NoDup (ks : list string) (u : string) :
  NoDup ks -> NoDup (add_key ks u).
Proof.
  intros H. unfold add_key. destruct (set_mem u ks) eqn:E; [exact H|].
  apply set_mem_not_In in E.
  apply NoDup_rev in H. rewrite <- (rev_involutive (ks ++ [u])).
  apply NoDup_rev. rewrite rev_app_distr. simpl. constructor; [|exact H].
  now rewrite <- in_rev.
Qed.

Lemma first_seen_snoc (l : list string) (u : string) :
  first_seen (l ++ [u]) = add_key (first_seen l) u.
Proof. unfold first_seen. now rewrite fold_left_app. Qed.

Lemma first_seen_In (l : list string) (u : string) :
  In u (first_seen l) <-> In u l.
Proof.
  induction l as [|x l IH] using rev_ind; [simpl; tauto|].
  rewrite first_seen_snoc, add_key_In, IH, in_app_iff. simpl. intuition.
Qed.

Lemma first_seen_NoDup (l : list string) : NoDup (first_seen l).
Proof.
  induction l as [|x l IH] using rev_ind; [constructor|].
  rewrite first_seen_snoc. now apply add_key_NoDup.
Qed.





Lemma before_In (A : Type) (a b : A) (l : list A) :
  before a b l -> In a l /\ In b l.
Proof.
  intros (l1 & l2 & l3 & ->). split.
  - apply in_or_app. right. now left.
  - apply in_or_app. right. right. apply in_or_app. right. now left.
Qed.



End FirstSeen.

(* ------------------------------------------------------------------ *)
(** ** The accumulation loops *)
(* ------------------------------------------------------------------ *)

Section Accumulate.

Variable h : Heap.
Variable ok : Result -> bool.
Variable c : Result -> Q.

Local Abbreviation urls := (urls_of h).
Local Abbreviation accumulated := (accumulated c h).

Lemma find_app (A : Type) (f : A -> bool) (l l' : list A) :
  find f (l ++ l') =
  match find f l with Some x => Some x | None => find f l' end.
Proof.
  induction l as [|x l IH]; simpl; [reflexivity|].
  destruct (f x); [reflexivity | exact IH].
Qed.

Lemma total_snoc (u : string) (l : list loc) (x : loc) :
  total c h u (l ++ [x]) =
  if String.eqb (item_url h x) u then (total c h u l + c (deref h x))%Q
  else total c h u l.
Proof. unfold total. now rewrite fold_left_app. Qed.

Lemma total_absent (u : string) (l : list loc) :
  (forall item, In item l -> item_url h item <> u) -> total c h u l = 0%Q.
Proof.
  induction l as [|x l IH] using rev_ind; intros H; [reflexivity|].
  rewrite total_snoc.
  destruct (String.eqb_spec (item_url h x) u) as [E|_].
  - exfalso. apply (H x); [apply in_or_app; right; now left | exact E].
  - apply IH. intros item Hi. apply H, in_or_app. now left.
Qed.

Lemma urls_snoc (l : list loc) (x : loc) :
  urls (l ++ [x]) =
  if has_url h x then urls l ++ [item_url h x] else urls l.
Proof.
  unfold urls_of. rewrite filter_app. simpl.
  destruct (has_url h x); [now rewrite map_app | now rewrite app_nil_r].
Qed.

Lemma In_urls (l : list loc) (u : string) :
  In u (urls l) <->
  exists item, In item l /\ has_url h item = true /\ item_url h item = u.
Proof.
  unfold urls_of. rewrite in_map_iff. split.
  - intros [item [E Hin]]. apply filter_In in Hin. exists item. tauto.
  - intros [item [Hin [Hu E]]]. exists item. rewrite filter_In. tauto.
Qed.

Lemma urls_nonempty (l : list loc) (u : string) :
  In u (urls l) -> u <> EmptyString.
Proof.
  intros H. apply In_urls in H. destruct H as [item [_ [Hu <-]]].
  unfold has_url in Hu. intros E. rewrite E in Hu. discriminate.
Qed.

Lemma has_url_of_nonempty (item : loc) :
  item_url h item <> EmptyString -> has_url h item = true.
Proof.
  unfold has_url. destruct (item_url h item); [congruence | reflexivity].
Qed.

Lemma first_item_urls (l : list loc) (u : string) :
  ~ In u (urls l) -> u <> EmptyString -> first_item h u l = None.
Proof.
  intros Hn Hu. unfold first_item.
  destruct (find _ l) as [item|] eqn:E; [|reflexivity].
  apply find_some in E. destruct E as [Hin He].
  apply String.eqb_eq in He. exfalso. apply Hn, In_urls.
  exists item. repeat split; auto. apply has_url_of_nonempty. congruence.
Qed.

Lemma total_urls (l : list loc) (u : string) :
  ~ In u (urls l) -> u <> EmptyString -> total c h u l = 0%Q.
Proof.
  intros Hn Hu. apply total_absent. intros item Hin E.
  apply Hn, In_urls. exists item. repeat split; auto.
  apply has_url_of_nonempty. congruence.
Qed.

Lemma accumulated_step (l : list loc) (x : loc) (st : fusion_state) :
  accumulated l st -> has_url h x = true ->
  accumulated (l ++ [x])
    (add_contribution st (item_url h x) x (c (deref h x))).
Proof.
  intros (Hk1 & Hk2 & Hsc & Hrp) Hx. destruct st as [sc rp]. simpl in *.
  set (ux := item_url h x).
  assert (Hux : ux <> EmptyString).
  { unfold has_url in Hx. fold ux in Hx. intros E. rewrite E in Hx.
    discriminate. }
  unfold accumulated. rewrite urls_snoc, Hx. fold ux.
  rewrite first_seen_snoc. cbn [fst snd].
  split; [now rewrite keys_dict_set, Hk1|].
  split.
  { rewrite dict_mem_keys, Hk2.
    destruct (set_mem ux (first_seen (urls l))) eqn:E.
    - unfold add_key. now rewrite E.
    - now rewrite keys_dict_set, Hk2. }
  split.
  - intros u Hu. rewrite total_snoc. fold ux.
    destruct (String.eqb_spec ux u) as [<-|Hne].
    + rewrite dict_get_set_same. f_equal. f_equal.
      destruct (in_dec string_dec ux (urls l)) as [Hin|Hnin].
      * now rewrite (Hsc ux Hin).
      * rewrite total_urls by assumption.
        destruct (dict_get sc ux) eqn:E; [|reflexivity].
        exfalso. apply Hnin. rewrite <- first_seen_In, <- Hk1.
        apply dict_get_In_keys. eauto.
    + rewrite dict_get_set_other by exact Hne. apply Hsc.
      apply in_app_or in Hu. destruct Hu as [Hu|[Hu|[]]]; congruence.
  - intros u Hu. unfold first_item. rewrite find_app. fold (first_item h u l).
    cbn [find]. fold ux.
    rewrite dict_mem_keys, Hk2.
    destruct (set_mem ux (first_seen (urls l))) eqn:E.
    + apply set_mem_In in E. rewrite first_seen_In in E.
      assert (Hul : In u (urls l)).
      { apply in_app_or in Hu. destruct Hu as [Hu|[<-|[]]]; assumption. }
      rewrite (Hrp u Hul).
      destruct (first_item h u l) eqn:F; [reflexivity|].
      rewrite <- (Hrp u Hul) in F.
      exfalso. assert (Hkk : In u (keys rp)) by (rewrite Hk2; now apply first_seen_In).
      apply dict_get_In_keys in Hkk. destruct Hkk as [v Hv]. congruence.
    + apply set_mem_not_In in E. rewrite first_seen_In in E.
      destruct (String.eqb_spec ux u) as [<-|Hne].
      * rewrite dict_get_set_same. now rewrite first_item_urls.
      * rewrite dict_get_set_other by exact Hne.
        assert (Hul : In u (urls l)).
        { apply in_app_or in Hu. destruct Hu as [Hu|[Hu|[]]]; congruence. }
        rewrite (Hrp u Hul).
        destruct (first_item h u l) eqn:F; [reflexivity|].
        rewrite <- (Hrp u Hul) in F.
        exfalso. assert (Hkk : In u (keys rp)) by (rewrite Hk2; now apply first_seen_In).
        apply dict_get_In_keys in Hkk. destruct Hkk as [v Hv]. congruence.
Qed.

Lemma accumulated_skip (l : list loc) (x : loc) (st : fusion_state) :
  accumulated l st -> has_url h x = false -> accumulated (l ++ [x]) st.
Proof.
  intros (Hk1 & Hk2 & Hsc & Hrp) Hx.
  unfold accumulated. rewrite urls_snoc, Hx.
  repeat split; try assumption.
  - intros u Hu. rewrite total_snoc.
    destruct (String.eqb_spec (item_url h x) u) as [E|_]; [|now apply Hsc].
    apply urls_nonempty in Hu. rewrite has_url_of_nonempty in Hx; congruence.
  - intros u Hu. unfold first_item. rewrite find_app.
    fold (first_item h u l). rewrite <- (Hrp u Hu).
    assert (Hkk : In u (keys (snd st))) by (rewrite Hk2; now apply first_seen_In).
    apply dict_get_In_keys in Hkk. destruct Hkk as [v ->]. reflexivity.
Qed.

(** The loop runs through when no item with a url makes the body raise. *)
Lemma for_each_accumulated (items : list loc) :
  (forall item, In item items -> has_url h item = true ->
     ok (deref h item) = true) ->
  exists st, for_each (fusion_item ok c h) items ([], []) = Some st
             /\ accumulated items st.
Proof.
  induction items as [|x l IH] using rev_ind; intros Hok.
  - exists ([], []). split; [reflexivity|].
    repeat split; intros u [].
  - destruct IH as [st [Hst Hacc]].
    { intros item Hi. apply Hok, in_or_app. now left. }
    rewrite for_each_app, Hst. simpl. unfold fusion_item.
    destruct (has_url h x) eqn:Hx.
    + assert (Hokx : ok (deref h x) = true).
      { apply Hok; [|exact Hx]. apply in_or_app. right. now left. }
      rewrite Hokx. eexists. split; [reflexivity|]. now apply accumulated_step.
    + eexists. split; [reflexivity|]. now apply accumulated_skip.
Qed.

(** It raises as soon as the body does. *)
Lemma for_each_raises (items : list loc) (st : fusion_state) :
  (exists item, In item items /\ has_url h item = true
                /\ ok (deref h item) = false) ->
  for_each (fusion_item ok c h) items st = None.
Proof.
  revert st. induction items as [|x l IH]; intros st [item [Hin [Hu Hb]]];
    [destruct Hin|].
  simpl. destruct Hin as [->|Hin].
  - unfold fusion_item. now rewrite Hu, Hb.
  - destruct (fusion_item ok c h st x); [|reflexivity].
    apply IH. eauto.
Qed.

End Accumulate.

(* ------------------------------------------------------------------ *)
(** ** The stable descending sort *)
(* ------------------------------------------------------------------ *)

Section Sorting.

Local Open Scope Q_scope.

Lemma insert_desc_perm (x : string * Q) (l : list (string * Q)) :
  Permutation (insert_desc x l) (x :: l).
Proof.
  induction l as [|y l IH]; simpl; [apply Permutation_refl|].
  destruct (Qle_bool (snd y) (snd x)); [apply Permutation_refl|].
  eapply perm_trans; [apply perm_skip, IH | apply perm_swap].
Qed.

Lemma sorted_desc_perm (l : list (string * Q)) :
  Permutation (sorted_desc l) l.
Proof.
  induction l as [|x l IH]; simpl; [constructor|].
  eapply perm_trans; [apply insert_desc_perm | now apply perm_skip].
Qed.

Lemma insert_desc_descending (x : string * Q) (l : list (string * Q)) :
  descending l -> descending (insert_desc x l).
Proof.
  unfold descending. induction l as [|y l IH]; intros Hs; simpl.
  - repeat constructor.
  - inversion Hs as [|? ? Hl Hy]; subst.
    destruct (Qle_bool (snd y) (snd x)) eqn:E.
    + apply Qle_bool_iff in E. constructor; [exact Hs|].
      constructor; [exact E|].
      rewrite Forall_forall in *. intros z Hz.
      eapply Qle_trans; [apply (Hy z Hz) | exact E].
    + apply Qle_bool_false in E. constructor; [now apply IH|].
      rewrite Forall_forall in *. intros z Hz.
      apply (Permutation_in _ (insert_desc_perm x l)) in Hz.
      destruct Hz as [<-|Hz]; [now apply Qlt_le_weak | now apply Hy].
Qed.

Lemma sorted_desc_descending (l : list (string * Q)) :
  descending (sorted_desc l).
Proof.
  induction l as [|x l IH]; simpl; [constructor|].
  now apply insert_desc_descending.
Qed.








Lemma descending_before (a b : string * Q) (l : list (string * Q)) :
  descending l -> before a b l -> snd b <= snd a.
Proof.
  intros Hs (l1 & l2 & l3 & ->). unfold descending in Hs.
  induction l1 as [|x l1 IH]; simpl in Hs.
  - inversion Hs as [|? ? _ Ha]; subst. rewrite Forall_forall in Ha.
    apply Ha, in_or_app. right. now left.
  - inversion Hs; subst. now apply IH.
Qed.

Lemma before_map (A B : Type) (f : A -> B) (a b : A) (l : list A) :
  before a b l -> before (f a) (f b) (map f l).
Proof.
  intros (l1 & l2 & l3 & ->).
  exists (map f l1), (map f l2), (map f l3).
  rewrite map_app. simpl. now rewrite map_app.
Qed.

End Sorting.

(* ------------------------------------------------------------------ *)
(** ** The output loop *)
(* ------------------------------------------------------------------ *)

Section Emit.

Lemma store_last (h : Heap) (r r' : Result) :
  store (h ++ [r]) (List.length h) r' = h ++ [r'].
Proof. induction h as [|x h IH]; simpl; [reflexivity | now rewrite IH]. Qed.

Lemma deref_last (h : Heap) (r : Result) :
  deref (h ++ [r]) (List.length h) = r.
Proof.
  unfold deref. rewrite app_nth2, Nat.sub_diag; [reflexivity | lia].
Qed.

(** Copying an object and overwriting three fields of the copy appends one
    record and touches nothing else. *)
Lemma copy_and_overwrite (h : Heap) (r : Result) (i : Z) (s : Q) :
  let (rep, h1) := alloc h r in
  setitem_score (setitem_source (setitem_rank h1 rep i) rep fused_label) rep s
  = h ++ [fused_record r i s].
Proof.
  unfold alloc, setitem_score, setitem_source, setitem_rank.
  rewrite deref_last, store_last, deref_last, store_last, deref_last,
    store_last.
  reflexivity.
Qed.

Variable h : Heap.
Variable representative : dict loc.

Local Abbreviation represented := (represented h representative).

Lemma emit_appends (ordered : list (string * Q)) :
  forall i fused ext,
    represented ordered ->
    emit representative ordered i fused (h ++ ext) =
    Some (fused ++ seq (List.length (h ++ ext)) (List.length ordered),
          (h ++ ext) ++ fused_records h representative ordered i).
Proof.
  induction ordered as [|[u s] rest IH]; intros i fused ext Hrep.
  - simpl. now rewrite !app_nil_r.
  - destruct (Hrep u s) as [item [Hget Hlt]]; [now left|].
    cbn [emit fused_records]. rewrite Hget.
    pose proof (copy_and_overwrite (h ++ ext) (deref (h ++ ext) item) i s)
      as Hcopy.
    destruct (alloc (h ++ ext) (deref (h ++ ext) item)) as [rep h1] eqn:Ha.
    rewrite Hcopy.
    unfold alloc in Ha. injection Ha as <- _.
    rewrite deref_app_old by exact Hlt.
    rewrite <- app_assoc.
    rewrite IH by (intros u' s' H'; apply (Hrep u' s'); now right).
    f_equal. f_equal.
    + rewrite <- app_assoc. cbn [app List.length seq]. do 2 f_equal.
      rewrite !length_app. simpl. f_equal. lia.
    + rewrite <- !app_assoc. reflexivity.
Qed.

Lemma length_fused_records (ordered : list (string * Q)) :
  forall i,
    represented ordered ->
    List.length (fused_records h representative ordered i)
    = List.length ordered.
Proof.
  induction ordered as [|[u s] rest IH]; intros i Hrep; [reflexivity|].
  destruct (Hrep u s) as [item [Hget _]]; [now left|].
  cbn [fused_records]. rewrite Hget. simpl. f_equal.
  apply IH. intros u' s' H'. apply (Hrep u' s'). now right.
Qed.

Lemma ranks_fused_records (ordered : list (string * Q)) :
  forall i,
    represented ordered ->
    map rank (fused_records h representative ordered i)
    = count_from i (List.length ordered).
Proof.
  induction ordered as [|[u s] rest IH]; intros i Hrep; [reflexivity|].
  destruct (Hrep u s) as [item [Hget _]]; [now left|].
  cbn [fused_records]. rewrite Hget. simpl. f_equal.
  apply IH. intros u' s' H'. apply (Hrep u' s'). now right.
Qed.

(** The url of a record is that of its representative, the score the
    accumulated one. *)
Lemma entries_fused_records (ordered : list (string * Q)) :
  forall i,
    represented ordered ->
    (forall u s item, In (u, s) ordered ->
       dict_get representative u = Some item -> item_url h item = u) ->
    map entry (fused_records h representative ordered i) = ordered.
Proof.
  induction ordered as [|[u s] rest IH]; intros i Hrep Hurl; [reflexivity|].
  destruct (Hrep u s) as [item [Hget _]]; [now left|].
  cbn [fused_records]. rewrite Hget. simpl. f_equal.
  - unfold entry. f_equal.
    transitivity (item_url h item); [reflexivity|].
    apply (Hurl u s item); [now left | exact Hget].
  - apply IH.
    + intros u' s' H'. apply (Hrep u' s'). now right.
    + intros u' s' item' H'. apply (Hurl u' s'). now right.
Qed.

(** Each record is a representative with rank, source and score
    overwritten. *)
Lemma In_fused_records (ordered : list (string * Q)) :
  forall i r,
    In r (fused_records h representative ordered i) ->
    exists u s item j,
      In (u, s) ordered /\ dict_get representative u = Some item
      /\ r = fused_record (deref h item) j s.
Proof.
  induction ordered as [|[u s] rest IH]; intros i r Hr; [destruct Hr|].
  cbn [fused_records] in Hr.
  destruct (dict_get representative u) as [item|] eqn:Hget; [|destruct Hr].
  destruct Hr as [<-|Hr].
  - exists u, s, item, i. repeat split; auto. now left.
  - destruct (IH _ _ Hr) as (u' & s' & item' & j & Hin & Hg & E).
    exists u', s', item', j. repeat split; auto. now right.
Qed.

End Emit.

(* ------------------------------------------------------------------ *)
(** ** Accumulate, sort, emit *)
(* ------------------------------------------------------------------ *)

Section Fuse.

Variable h : Heap.
Variable ok : Result -> bool.
Variable c : Result -> Q.

Lemma runs_true (items : list loc) :
  runs ok h items = true <->
  forall item, In item items -> has_url h item = true ->
    ok (deref h item) = true.
Proof.
  unfold runs. rewrite forallb_forall. split; intros H item Hin.
  - intros Hu. specialize (H item Hin). rewrite Hu in H. exact H.
  - destruct (has_url h item) eqn:Hu; [simpl; now apply H | reflexivity].
Qed.

Lemma runs_false (items : list loc) :
  runs ok h items = false ->
  exists item, In item items /\ has_url h item = true
               /\ ok (deref h item) = false.
Proof.
  unfold runs. induction items as [|x l IH]; simpl; [discriminate|].
  destruct (has_url h x) eqn:Hu; simpl.
  - destruct (ok (deref h x)) eqn:Hb; simpl.
    + intros H. destruct (IH H) as [item [Hin Hrest]]. eauto.
    + intros _. exists x. auto.
  - intros H. destruct (IH H) as [item [Hin Hrest]]. eauto.
Qed.

Lemma accumulated_represented (items : list loc) (st : fusion_state) :
  accumulated c h items st -> valid h items ->
  forall u s, In (u, s) (sorted_desc (fst st)) ->
    exists item, dict_get (snd st) u = Some item
      /\ item < List.length h /\ In item items /\ item_url h item = u
      /\ In u (urls_of h items).
Proof.
  intros (Hk1 & Hk2 & Hsc & Hrp) Hv u s Hin.
  apply (Permutation_in _ (sorted_desc_perm (fst st))) in Hin.
  assert (Hu : In u (urls_of h items)).
  { rewrite <- first_seen_In, <- Hk1. unfold keys.
    apply (in_map fst) in Hin. exact Hin. }
  assert (Hkk : In u (keys (snd st))) by (rewrite Hk2; now apply first_seen_In).
  apply dict_get_In_keys in Hkk. destruct Hkk as [item Hget].
  exists item. split; [exact Hget|].
  rewrite (Hrp u Hu) in Hget. apply find_some in Hget.
  destruct Hget as [Hi He]. apply String.eqb_eq in He.
  unfold valid in Hv. rewrite Forall_forall in Hv. auto.
Qed.

(** When the loops run through, the function returns, and what it returns
    is [fused_from]. *)
Lemma fuse_returns (ranked_lists : list (list loc)) :
  runs ok h (List.concat ranked_lists) = true ->
  valid h (List.concat ranked_lists) ->
  exists out h',
    fuse (fusion_item ok c h) ranked_lists h = Some (out, h')
    /\ fused_from c h (List.concat ranked_lists) out h'.
Proof.
  intros Hr Hv. pose proof (proj1 (runs_true _) Hr) as Hok.
  destruct (@for_each_accumulated h ok c _ Hok) as [[sc rp] [Hst Hacc]].
  assert (Hrep : represented h rp (sorted_desc sc)).
  { intros u s Hin.
    destruct (accumulated_represented Hacc Hv u s Hin) as [item [? [? _]]].
    eauto. }
  unfold fuse, accumulate. rewrite for_each_concat, Hst.
  pose proof (emit_appends (h := h) 1%Z [] [] Hrep) as He.
  rewrite app_nil_r in He. rewrite He. simpl.
  do 2 eexists. split; [reflexivity|].
  exists sc, rp. repeat split; try assumption; try apply Hacc.
  f_equal. apply Permutation_length, sorted_desc_perm.
Qed.

(** When a loop body raises, so does the function. *)
Lemma fuse_raises (ranked_lists : list (list loc)) :
  runs ok h (List.concat ranked_lists) = false ->
  fuse (fusion_item ok c h) ranked_lists h = None.
Proof.
  intros Hr. apply runs_false in Hr.
  unfold fuse, accumulate. rewrite for_each_concat.
  now rewrite for_each_raises.
Qed.

Lemma fuse_Some (ranked_lists : list (list loc)) (out : list loc)
    (h' : Heap) :
  valid h (List.concat ranked_lists) ->
  fuse (fusion_item ok c h) ranked_lists h = Some (out, h') ->
  fused_from c h (List.concat ranked_lists) out h'.
Proof.
  intros Hv Hf.
  destruct (runs ok h (List.concat ranked_lists)) eqn:Hr.
  - destruct (fuse_returns ranked_lists Hr Hv) as (out' & h'' & E & H).
    congruence.
  - rewrite (fuse_raises ranked_lists Hr) in Hf. discriminate.
Qed.

End Fuse.

(* ------------------------------------------------------------------ *)
(** ** What a fusion leaves behind *)
(* ------------------------------------------------------------------ *)

Section FusedFacts.

Variable c : Result -> Q.
Variable h : Heap.
Variable items : list loc.

Lemma map_deref_appended (recs : list Result) :
  map (deref (h ++ recs)) (seq (List.length h) (List.length recs)) = recs.
Proof.
  induction recs as [|r recs IH] using rev_ind; [reflexivity|].
  rewrite length_app, Nat.add_comm. cbn [List.length Nat.add].
  rewrite seq_S, map_app. cbn [map]. f_equal.
  - transitivity
      (map (deref (h ++ recs)) (seq (List.length h) (List.length recs)));
      [|exact IH].
    apply map_ext_in. intros a Ha.
    apply in_seq in Ha. rewrite app_assoc.
    apply deref_app_old. rewrite length_app. lia.
  - f_equal. rewrite app_assoc.
    replace (List.length h + List.length recs)%nat
      with (List.length (h ++ recs)) by apply length_app.
    apply deref_last.
Qed.

(** The view of a fusion result that the properties below are read from:
    the score dict, the output as its sorted items, and each output record
    as an overwritten copy of the first item seen with its url. *)
Lemma fused_from_view (out : list loc) (h' : Heap) :
  fused_from c h items out h' ->
  exists scores,
    keys scores = first_seen (urls_of h items)
    /\ (forall u, In u (urls_of h items) ->
          dict_get scores u = Some (total c h u items))
    /\ entries h' out = sorted_desc scores
    /\ ranks_of h' out = count_from 1%Z (List.length out)
    /\ out = seq (List.length h) (List.length scores)
    /\ (forall a, In a out ->
          exists item j s,
            In item items /\ has_url h item = true
            /\ first_item h (item_url h item) items = Some item
            /\ deref h' a = fused_record (deref h item) j s)
    /\ (exists recs, h' = h ++ recs /\ List.length recs = List.length scores).
Proof.
  intros (sc & rp & Hacc & Hrep & -> & ->).
  pose proof Hacc as (Hk1 & Hk2 & Hsc & Hrp).
  cbn [fst snd] in *.
  set (recs := fused_records h rp (sorted_desc sc) 1%Z).
  assert (Hlen : List.length recs = List.length sc).
  { unfold recs. rewrite (length_fused_records 1%Z Hrep).
    apply Permutation_length, sorted_desc_perm. }
  assert (Hmap : map (deref (h ++ recs)) (seq (List.length h) (List.length sc))
                 = recs).
  { rewrite <- Hlen. apply map_deref_appended. }
  assert (Hurl : forall u s item, In (u, s) (sorted_desc sc) ->
            dict_get rp u = Some item ->
            In item items /\ item_url h item = u /\ In u (urls_of h items)).
  { intros u s item Hin Hget.
    apply (Permutation_in _ (sorted_desc_perm sc)) in Hin.
    assert (Hu : In u (urls_of h items)).
    { rewrite <- first_seen_In, <- Hk1. unfold keys.
      apply (in_map fst) in Hin. exact Hin. }
    rewrite (Hrp u Hu) in Hget. apply find_some in Hget.
    destruct Hget as [Hi He]. apply String.eqb_eq in He. auto. }
  exists sc. split; [exact Hk1|]. split; [exact Hsc|].
  split.
  { unfold entries. rewrite <- (map_map (deref (h ++ recs)) entry), Hmap.
    apply entries_fused_records; [exact Hrep|].
    intros u s item Hin Hget. now destruct (Hurl u s item Hin Hget) as (_ & ? & _). }
  split.
  { unfold ranks_of. rewrite <- (map_map (deref (h ++ recs)) rank), Hmap.
    rewrite length_seq. unfold recs.
    rewrite (ranks_fused_records 1%Z Hrep). f_equal.
    apply Permutation_length, sorted_desc_perm. }
  split; [reflexivity|].
  split; [|exists recs; auto].
  intros a Ha.
  assert (Hr : In (deref (h ++ recs) a) recs).
  { rewrite <- Hmap at 2. now apply in_map. }
  apply In_fused_records in Hr.
  destruct Hr as (u & s & item & j & Hin & Hget & E).
  destruct (Hurl u s item Hin Hget) as (Hi & Hu & Hus).
  exists item, j, s. split; [exact Hi|].
  split; [apply has_url_of_nonempty; rewrite Hu; eapply urls_nonempty, Hus|].
  split; [|exact E].
  rewrite Hu, <- (Hrp u Hus). exact Hget.
Qed.

End FusedFacts.

(* ------------------------------------------------------------------ *)
(** ** Properties read off the view *)
(* ------------------------------------------------------------------ *)

Section FusionProperties.

Variable c : Result -> Q.
Variable h : Heap.
Variable items : list loc.
Variable out : list loc.
Variable h' : Heap.
Hypothesis Hfused : fused_from c h items out h'.


Lemma get_url_Some (r : Result) (u : string) :
  get_url r = u -> u <> EmptyString -> url r = Some u.
Proof.
  unfold get_url. destruct (url r); intros <- H; congruence.
Qed.

(** An output entry has a score and a non-empty url. *)
Lemma fused_entry_fields (a : loc) :
  In a out ->
  score (deref h' a) = Some (get_score (deref h' a))
  /\ url (deref h' a) = Some (item_url h' a)
  /\ In (item_url h' a) (urls_of h items).
Proof.
  intros Ha.
  destruct (fused_from_view Hfused) as (sc & _ & _ & _ & _ & _ & Hrec & _).
  destruct (Hrec a Ha) as (item & j & s & Hi & Hu & _ & E).
  unfold item_url at 1 2. rewrite E. unfold get_score. cbn.
  split; [reflexivity|].
  assert (Hin : In (get_url (deref h item)) (urls_of h items)).
  { apply In_urls. exists item. auto. }
  split; [|exact Hin].
  apply get_url_Some; [reflexivity | eapply urls_nonempty, Hin].
Qed.


Lemma fused_descend : scores_descend out h'.
Proof.
  intros a b Hab.
  destruct (fused_from_view Hfused) as (sc & _ & _ & Hent & _).
  destruct (before_In Hab) as [Ha Hb].
  exists (get_score (deref h' a)), (get_score (deref h' b)).
  split; [apply (fused_entry_fields a Ha)|].
  split; [apply (fused_entry_fields b Hb)|].
  apply (before_map (fun x => entry (deref h' x))) in Hab.
  fold (entries h' out) in Hab. rewrite Hent in Hab.
  apply (descending_before (sorted_desc_descending sc) Hab).
Qed.


Lemma fused_ranks : ranks_contiguous out h'.
Proof.
  destruct (fused_from_view Hfused) as (sc & _ & _ & _ & Hr & _).
  exact Hr.
Qed.

Lemma fused_urls :
  NoDup (map (item_url h') out)
  /\ (forall u, In u (map (item_url h') out) <-> In u (urls_of h items))
  /\ (forall a, In a out -> has_url h' a = true).
Proof.
  destruct (fused_from_view Hfused) as (sc & Hk & _ & Hent & _).
  assert (E : map (item_url h') out = map fst (sorted_desc sc)).
  { rewrite <- Hent. unfold entries. rewrite map_map. reflexivity. }
  assert (P : Permutation (map (item_url h') out) (first_seen (urls_of h items))).
  { rewrite E, <- Hk. apply Permutation_map, sorted_desc_perm. }
  split; [|split].
  - apply (Permutation_NoDup (Permutation_sym P)), first_seen_NoDup.
  - intros u. rewrite <- (first_seen_In (urls_of h items) u).
    split; apply Permutation_in; [exact P | apply Permutation_sym, P].
  - intros a Ha. apply has_url_of_nonempty.
    destruct (fused_entry_fields a Ha) as (_ & _ & Hin).
    eapply urls_nonempty, Hin.
Qed.


Lemma fused_fresh : fresh_copies h items out h'.
Proof.
  destruct (fused_from_view Hfused)
    as (sc & _ & _ & _ & _ & Hout & Hrec & (recs & Hh & Hlen)).
  split; [rewrite Hout; apply seq_NoDup|].
  intros a Ha. split.
  - rewrite Hout in Ha. apply in_seq in Ha.
    rewrite Hh, length_app, Hlen. lia.
  - destruct (Hrec a Ha) as (item & j & s & Hi & _ & Hf & E). eauto 10.
Qed.

End FusionProperties.

(* ------------------------------------------------------------------ *)
(** ** rrf_fusion and combsum_fusion as instances *)
(* ------------------------------------------------------------------ *)

Section Instances.

Lemma for_each_ext (S A : Type) (f g : S -> A -> option S) :
  (forall st x, f st x = g st x) ->
  forall xs st, for_each f xs st = for_each g xs st.
Proof.
  intros H xs. induction xs as [|x xs IH]; intros st; simpl; [reflexivity|].
  rewrite H. destruct (g st x); [apply IH | reflexivity].
Qed.

Lemma fuse_ext (f g : fusion_state -> loc -> option fusion_state)
    (ranked_lists : list (list loc)) (h : Heap) :
  (forall st x, f st x = g st x) ->
  fuse f ranked_lists h = fuse g ranked_lists h.
Proof.
  intros H. unfold fuse, accumulate.
  rewrite !for_each_concat. now rewrite (for_each_ext _ _ H).
Qed.

Lemma rrf_item_fusion_item (h : Heap) (k : Z) (st : fusion_state)
    (item : loc) :
  rrf_item h k st item = fusion_item (rrf_ok k) (rrf_contrib k) h st item.
Proof.
  unfold rrf_item, fusion_item, has_url, item_url, rrf_ok, rrf_contrib.
  destruct (Str.is_empty (get_url (deref h item))); simpl; [reflexivity|].
  destruct (k + get_rank (deref h item) =? 0)%Z; reflexivity.
Qed.

Lemma combsum_item_fusion_item (h : Heap) (st : fusion_state) (item : loc) :
  combsum_item h st item =
  fusion_item (fun _ => true) combsum_contrib h st item.
Proof.
  unfold combsum_item, fusion_item, has_url, item_url.
  destruct (Str.is_empty (get_url (deref h item))); reflexivity.
Qed.

Lemma rrf_fusion_fuse (ranked_lists : list (list loc)) (k : Z) (h : Heap) :
  rrf_fusion ranked_lists k h =
  fuse (fusion_item (rrf_ok k) (rrf_contrib k) h) ranked_lists h.
Proof. apply fuse_ext, rrf_item_fusion_item. Qed.

Lemma combsum_fusion_fuse (ranked_lists : list (list loc)) (h : Heap) :
  combsum_fusion ranked_lists h =
  fuse (fusion_item (fun _ => true) combsum_contrib h) ranked_lists h.
Proof. apply fuse_ext, combsum_item_fusion_item. Qed.







Lemma rrf_fusion_Some (ranked_lists : list (list loc)) (k : Z) (h : Heap)
    (out : list loc) (h' : Heap) :
  valid h (List.concat ranked_lists) ->
  rrf_fusion ranked_lists k h = Some (out, h') ->
  fused_from (rrf_contrib k) h (List.concat ranked_lists) out h'.
Proof. rewrite rrf_fusion_fuse. apply fuse_Some. Qed.


Lemma combsum_fusion_Some (ranked_lists : list (list loc)) (h : Heap)
    (out : list loc) (h' : Heap) :
  valid h (List.concat ranked_lists) ->
  combsum_fusion ranked_lists h = Some (out, h') ->
  fused_from combsum_contrib h (List.concat ranked_lists) out h'.
Proof. rewrite combsum_fusion_fuse. apply fuse_Some. Qed.

(** *** Items without url *)





(** *** The output loop only appends *)

Lemma emit_only_appends (representative : dict loc)
    (ordered : list (string * Q)) :
  forall i fused h out h',
    emit representative ordered i fused h = Some (out, h') ->
    exists recs, h' = h ++ recs.
Proof.
  induction ordered as [|[u s] rest IH]; intros i fused h out h' H.
  - simpl in H. injection H as _ <-. exists []. now rewrite app_nil_r.
  - cbn [emit] in H.
    destruct (dict_get representative u) as [item|]; [|discriminate].
    pose proof (copy_and_overwrite h (deref h item) i s) as Hc.
    destruct (alloc h (deref h item)) as [rep h1].
    rewrite Hc in H. apply IH in H. destruct H as [recs ->].
    eexists. now rewrite <- app_assoc.
Qed.

Lemma fuse_untouched (body : fusion_state -> loc -> option fusion_state)
    (ranked_lists : list (list loc)) (h : Heap) (out : list loc)
    (h' : Heap) :
  fuse body ranked_lists h = Some (out, h') -> input_untouched h h'.
Proof.
  unfold fuse. destruct (accumulate body ranked_lists) as [[sc rp]|];
    [|discriminate].
  intros H. apply emit_only_appends in H. destruct H as [recs ->].
  unfold input_untouched.
  rewrite firstn_app, Nat.sub_diag, firstn_all. simpl. apply app_nil_r.
Qed.

End Instances.

(* ------------------------------------------------------------------ *)
(** ** The claims about fusion *)
(* ------------------------------------------------------------------ *)

Section FusionClaims.

Local Open Scope string_scope.

Lemma valid_heap_ab : valid heap_ab (List.concat lists_ab).
Proof. repeat constructor. Qed.

Lemma valid_heap_xy : valid heap_xy (List.concat lists_xy).
Proof. repeat constructor. Qed.






(** Fusion keys by the raw string: two urls that [canonicalize_url] maps to
    the same key stay two entries. *)
Lemma rrf_fusion_keys_raw_urls :
  canonicalize_url "http://a.com" = canonicalize_url "a.com"
  /\ exists h',
      rrf_fusion [[0]; [1]]%nat 60 heap_raw = Some ([2; 3]%nat, h')
      /\ url (deref h' 2) = Some "http://a.com"
      /\ url (deref h' 3) = Some "a.com".
Proof.
  split; [reflexivity|].
  eexists. split; [vm_compute; reflexivity|]. split; reflexivity.
Qed.






(** C4: in every output of either fusion function, of any size M, the rank
    fields read in list order are 1, 2, ..., M, and the scores never go up
    along the list. *)
Theorem fusion_ranks_contiguous :
  (forall ranked_lists k h out h',
     valid h (List.concat ranked_lists) ->
     rrf_fusion ranked_lists k h = Some (out, h') ->
     ranks_contiguous out h' /\ scores_descend out h')
  /\ (forall ranked_lists h out h',
       valid h (List.concat ranked_lists) ->
       combsum_fusion ranked_lists h = Some (out, h') ->
       ranks_contiguous out h' /\ scores_descend out h').
Proof.
  split.
  - intros ranked_lists k h out h' Hv E.
    pose proof (rrf_fusion_Some _ _ Hv E) as Hf.
    split; [exact (fused_ranks Hf) | exact (fused_descend Hf)].
  - intros ranked_lists h out h' Hv E.
    pose proof (combsum_fusion_Some _ Hv E) as Hf.
    split; [exact (fused_ranks Hf) | exact (fused_descend Hf)].
Qed.

Lemma fusion_ranks_contiguous_witness :
  exists h',
    combsum_fusion lists_xy heap_xy = Some ([2; 3]%nat, h')
    /\ ranks_contiguous [2; 3]%nat h' /\ scores_descend [2; 3]%nat h'.
Proof.
  eexists. split; [vm_compute; reflexivity|].
  apply (proj2 fusion_ranks_contiguous lists_xy heap_xy).
  - exact valid_heap_xy.
  - vm_compute. reflexivity.
Defined.



(** *** deduplicate writes into its input *)

Lemma deduplicate_in_place (results : list loc) (h : Heap) :
  overwritten_in_place results h
    (fst (deduplicate results h)) (snd (deduplicate results h)).
Proof.
  rewrite deduplicate_unfold. cbn [fst snd].
  split; [intros l; apply keep_first_In|].
  split; [apply length_assign_ranks|].
  split; [intros l; apply assign_ranks_frame|].
  split; [intros l Hl; now apply assign_ranks_other|].
  intros Hv. apply ranks_of_assign_ranks; [apply keep_first_NoDup|].
  unfold valid in *. rewrite Forall_forall in *.
  intros l Hl. apply Hv. eapply keep_first_In, Hl.
Qed.

(** C10: neither fusion function writes into its input: every record that
    was in the heap before the call is there unchanged after it, and every
    output entry is a new object, namely a copy of the first item seen with
    its url in which rank, source and score have been overwritten;
    [deduplicate] instead returns input objects and writes their ranks in
    place, leaving all other fields and all other objects as they were. *)
Theorem fusion_copies_deduplicate_overwrites :
  (forall ranked_lists k h out h',
     rrf_fusion ranked_lists k h = Some (out, h') ->
     input_untouched h h'
     /\ (valid h (List.concat ranked_lists) ->
         fresh_copies h (List.concat ranked_lists) out h'))
  /\ (forall ranked_lists h out h',
       combsum_fusion ranked_lists h = Some (out, h') ->
       input_untouched h h'
       /\ (valid h (List.concat ranked_lists) ->
           fresh_copies h (List.concat ranked_lists) out h'))
  /\ (forall results h,
       overwritten_in_place results h
         (fst (deduplicate results h)) (snd (deduplicate results h))).
Proof.
  split; [|split].
  - intros ranked_lists k h out h' E.
    split; [exact (fuse_untouched _ _ _ E)|].
    intros Hv. exact (fused_fresh (rrf_fusion_Some _ _ Hv E)).
  - intros ranked_lists h out h' E.
    split; [exact (fuse_untouched _ _ _ E)|].
    intros Hv. exact (fused_fresh (combsum_fusion_Some _ Hv E)).
  - exact deduplicate_in_place.
Qed.

Lemma fusion_copies_deduplicate_overwrites_witness :
  exists h',
    rrf_fusion lists_ab 60 heap_ab = Some ([4; 5]%nat, h')
    /\ input_untouched heap_ab h'
    /\ fresh_copies heap_ab (List.concat lists_ab) [4; 5]%nat h'.
Proof.
  eexists. split; [vm_compute; reflexivity|].
  destruct fusion_copies_deduplicate_overwrites as (Hrrf & _ & _).
  destruct (Hrrf lists_ab 60%Z heap_ab [4; 5]%nat _ eq_refl) as [H1 H2].
  split; [exact H1 | exact (H2 valid_heap_ab)].
Defined.

End FusionClaims.

(* ------------------------------------------------------------------ *)
(** ** deduplicate against the specification *)
(* ------------------------------------------------------------------ *)

Section DeduplicateSpec.

Lemma decimal_inj (n m : nat) : decimal n = decimal m -> n = m.
Proof.
  unfold decimal. intros H.
  apply (f_equal NilEmpty.uint_of_string) in H.
  rewrite !NilEmpty.usu in H. injection H as H.
  apply (f_equal Nat.of_uint) in H. now rewrite !Unsigned.of_to in H.
Qed.

Lemma append_inj (p a b : string) :
  String.append p a = String.append p b -> a = b.
Proof.
  induction p as [|c p IH]; simpl; [auto|]. intros [= H]. now apply IH.
Qed.

Lemma dedup_key_no_url (h : Heap) (r : loc) :
  has_url h r = false ->
  dedup_key h r = String.append empty_prefix (decimal r).
Proof.
  unfold has_url, item_url, dedup_key. intros H.
  apply negb_false_iff in H. now rewrite H.
Qed.

Lemma dedup_key_url (h : Heap) (r : loc) :
  has_url h r = true -> dedup_key h r = canonicalize_url (item_url h r).
Proof.
  unfold has_url, item_url, dedup_key. intros H.
  apply negb_true_iff in H. now rewrite H.
Qed.

(** Without clash, equal keys mean the same document. *)
Lemma dedup_key_same_document (h : Heap) (results : list loc) (r r' : loc) :
  no_clash h results -> In r results -> In r' results ->
  String.eqb (dedup_key h r) (dedup_key h r') = same_document h r r'.
Proof.
  intros Hc Hr Hr'. unfold same_document.
  destruct (has_url h r) eqn:Hu; destruct (has_url h r') eqn:Hu'; simpl.
  - now rewrite !dedup_key_url.
  - rewrite (dedup_key_url _ _ Hu), (dedup_key_no_url _ _ Hu').
    apply String.eqb_neq. now apply (Hc r' r).
  - rewrite (dedup_key_url _ _ Hu'), (dedup_key_no_url _ _ Hu).
    apply String.eqb_neq. intros E. now apply (Hc r r').
  - rewrite !dedup_key_no_url by assumption.
    destruct (Nat.eqb_spec r r') as [->|Hne].
    + apply String.eqb_refl.
    + apply String.eqb_neq. intros E. apply Hne.
      now apply decimal_inj, (append_inj empty_prefix).
Qed.

Lemma keep_first_refines (h : Heap) (all results : list loc) :
  no_clash h all -> incl results all ->
  forall kept, incl kept all ->
    keep_first h results (map (dedup_key h) kept)
    = keep_first_document h results kept.
Proof.
  intros Hc. induction results as [|r rest IH]; intros Hin kept Hk;
    [reflexivity|].
  assert (Hr : In r all) by (apply Hin; now left).
  assert (Hrest : incl rest all) by (intros x Hx; apply Hin; now right).
  cbn [keep_first keep_first_document].
  assert (E : set_mem (dedup_key h r) (map (dedup_key h) kept)
              = existsb (same_document h r) kept).
  { unfold set_mem. clear IH. induction kept as [|x kept IHk];
      [reflexivity|].
    cbn [map existsb].
    rewrite (@dedup_key_same_document h all r x Hc Hr) by (apply Hk; now left).
    f_equal. apply IHk. intros y Hy. apply Hk. now right. }
  rewrite E. destruct (existsb (same_document h r) kept).
  - now apply IH.
  - f_equal. apply (IH Hrest (r :: kept)).
    intros x [<-|Hx]; [exact Hr | now apply Hk].
Qed.

(** Where no url clashes with a made-up key, [deduplicate] keeps exactly
    the first result of every document, in the order of the input, and
    numbers the survivors 1, 2, ... *)
Lemma deduplicate_refines (results : list loc) (h : Heap) :
  no_clash h results -> valid h results ->
  fst (deduplicate results h) = keep_first_document h results []
  /\ ranks_of (snd (deduplicate results h)) (fst (deduplicate results h))
     = count_from 1%Z (List.length (fst (deduplicate results h))).
Proof.
  intros Hc Hv. split.
  - rewrite deduplicate_unfold. cbn [fst].
    apply (keep_first_refines (all := results) Hc (incl_refl _) (kept := [])).
    intros x [].
  - destruct (deduplicate_in_place results h) as (_ & _ & _ & _ & H).
    now apply H.
Qed.

Lemma deduplicate_refines_witness :
  fst (deduplicate [0; 1; 2]%nat heap_three_empty)
    = keep_first_document heap_three_empty [0; 1; 2]%nat [].
Proof.
  apply deduplicate_refines.
  - intros r r' _ Hr' _ Hu. exfalso.
    destruct Hr' as [<-|[<-|[<-|[]]]]; discriminate.
  - repeat constructor.
Defined.

(** Property P6: three results without url are all kept. *)
Lemma deduplicate_three_empty :
  fst (deduplicate [0; 1; 2]%nat heap_three_empty) = [0; 1; 2]%nat.
Proof. reflexivity. Qed.

(** C5 (fails on the code): the result at address 1 has a url, and no
    other result with a url shares its canonical key, so the claim keeps
    it; the result at address 0 has no url, so the claim never merges it
    with another result.  The url at address 1 spells the key made up for
    address 0, and whichever of the two comes second is dropped. *)
Theorem deduplicate_merges_url_with_made_up_key :
  has_url heap_clash 0 = false
  /\ has_url heap_clash 1 = true
  /\ dedup_key heap_clash 0 = dedup_key heap_clash 1
  /\ fst (deduplicate [0; 1]%nat heap_clash) = [0]%nat
  /\ fst (deduplicate [1; 0]%nat heap_clash) = [1]%nat
  /\ keep_first_document heap_clash [0; 1]%nat [] = [0; 1]%nat
  /\ keep_first_document heap_clash [1; 0]%nat [] = [1; 0]%nat.
Proof. repeat split; reflexivity. Qed.

End DeduplicateSpec.

(* ------------------------------------------------------------------ *)
(** ** What canonicalize_url does not tell apart *)
(* ------------------------------------------------------------------ *)

Section CanonicalForms.

Import Str.
Local Open Scope string_scope.

Lemma is_space_lower_char (c : ascii) : is_space (lower_char c) = is_space c.
Proof.
  destruct c as [[] [] [] [] [] [] [] []]; vm_compute; reflexivity.
Qed.

Lemma lower_char_twice (c : ascii) : lower_char (lower_char c) = lower_char c.
Proof.
  destruct c as [[] [] [] [] [] [] [] []]; vm_compute; reflexivity.
Qed.

Lemma lower_twice (s : string) : lower (lower s) = lower s.
Proof.
  induction s as [|c s IH]; simpl; [reflexivity|].
  now rewrite lower_char_twice, IH.
Qed.

Lemma lower_app (s t : string) : lower (s ++ t) = lower s ++ lower t.
Proof. induction s as [|c s IH]; simpl; [reflexivity | now rewrite IH]. Qed.

Lemma is_empty_lower (s : string) : is_empty (lower s) = is_empty s.
Proof. destruct s; reflexivity. Qed.

Lemma lstrip_lower (s : string) : lstrip (lower s) = lower (lstrip s).
Proof.
  induction s as [|c s IH]; simpl; [reflexivity|].
  rewrite is_space_lower_char. destruct (is_space c); [exact IH | reflexivity].
Qed.

Lemma rstrip_lower (s : string) : rstrip (lower s) = lower (rstrip s).
Proof.
  induction s as [|c s IH]; simpl; [reflexivity|].
  rewrite is_space_lower_char, IH, is_empty_lower.
  destruct (is_space c && is_empty (rstrip s)); reflexivity.
Qed.

Lemma strip_lower (s : string) : strip (lower s) = lower (strip s).
Proof. unfold strip. now rewrite lstrip_lower, rstrip_lower. Qed.

Lemma canonicalize_url_lower (u : string) :
  canonicalize_url (lower u) = canonicalize_url u.
Proof. unfold canonicalize_url. now rewrite strip_lower, lower_twice. Qed.

(** X1: urls that differ only in the case of their letters get the same
    canonical form. *)
Theorem canonicalize_url_ignores_case (u v : string) :
  lower u = lower v -> canonicalize_url u = canonicalize_url v.
Proof.
  intros H. rewrite <- (canonicalize_url_lower u), H.
  apply canonicalize_url_lower.
Qed.

Lemma canonicalize_url_ignores_case_witness :
  canonicalize_url "HTTP://Example.COM/Docs" =
  canonicalize_url "http://example.com/docs".
Proof. apply canonicalize_url_ignores_case. reflexivity. Defined.

(** *** Whitespace around the url *)

Lemma lstrip_all_space (w s : string) :
  all_space w = true -> lstrip (w ++ s) = lstrip s.
Proof.
  induction w as [|c w IH]; simpl; [reflexivity|].
  intros H. apply andb_true_iff in H. destruct H as [-> Hw]. now apply IH.
Qed.

Lemma rstrip_all_space (w : string) : all_space w = true -> rstrip w = "".
Proof.
  induction w as [|c w IH]; simpl; [reflexivity|].
  intros H. apply andb_true_iff in H. destruct H as [-> Hw].
  now rewrite (IH Hw).
Qed.

Lemma rstrip_app_all_space (s w : string) :
  all_space w = true -> rstrip (s ++ w) = rstrip s.
Proof.
  intros Hw. induction s as [|c s IH]; simpl.
  - now apply rstrip_all_space.
  - now rewrite IH.
Qed.

Lemma lstrip_app (s w : string) :
  lstrip (s ++ w) = if all_space s then lstrip w else lstrip s ++ w.
Proof.
  induction s as [|c s IH]; simpl; [reflexivity|].
  destruct (is_space c); simpl; [exact IH | reflexivity].
Qed.

Lemma lstrip_nil_all_space (s : string) :
  all_space s = true -> lstrip s = "".
Proof.
  induction s as [|c s IH]; simpl; [reflexivity|].
  intros H. apply andb_true_iff in H. destruct H as [-> Hs]. now apply IH.
Qed.

Lemma strip_padded (w1 u w2 : string) :
  all_space w1 = true -> all_space w2 = true ->
  strip (w1 ++ u ++ w2) = strip u.
Proof.
  intros H1 H2. unfold strip.
  rewrite lstrip_all_space by exact H1. rewrite lstrip_app.
  destruct (all_space u) eqn:Hu.
  - rewrite !lstrip_nil_all_space by assumption. reflexivity.
  - now apply rstrip_app_all_space.
Qed.

(** X2: whitespace in front of a url and behind it does not change the
    canonical form. *)
Theorem canonicalize_url_ignores_padding (w1 u w2 : string) :
  all_space w1 = true -> all_space w2 = true ->
  canonicalize_url (w1 ++ u ++ w2) = canonicalize_url u.
Proof.
  intros H1 H2. unfold canonicalize_url. now rewrite strip_padded.
Qed.

Lemma canonicalize_url_ignores_padding_witness :
  canonicalize_url ("  " ++ "http://a.com/x" ++ " ") =
  canonicalize_url "http://a.com/x".
Proof. apply canonicalize_url_ignores_padding; reflexivity. Defined.

(** *** Scheme and www. *)

Lemma rstrip_behind (p s : string) :
  all_space p = false -> lstrip p = p ->
  (forall t, rstrip (p ++ t) = p ++ rstrip t) ->
  strip (p ++ s) = p ++ rstrip s.
Proof.
  intros Hp Hl Hr. unfold strip. rewrite lstrip_app, Hp, Hl. apply Hr.
Qed.

Lemma strip_http (s : string) :
  strip ("http://" ++ s) = "http://" ++ rstrip s.
Proof. apply rstrip_behind; reflexivity. Qed.

Lemma strip_https (s : string) :
  strip ("https://" ++ s) = "https://" ++ rstrip s.
Proof. apply rstrip_behind; reflexivity. Qed.

Lemma strip_http_www (s : string) :
  strip ("http://www." ++ s) = "http://www." ++ rstrip s.
Proof. apply rstrip_behind; reflexivity. Qed.

Lemma strip_www (s : string) : strip ("www." ++ s) = "www." ++ rstrip s.
Proof. apply rstrip_behind; reflexivity. Qed.

Lemma sub_scheme_http (x : string) :
  Re.sub_scheme ("http://" ++ x)
  = match drop_prefix "www." x with Some r => r | None => x end.
Proof. reflexivity. Qed.

Lemma sub_scheme_https (x : string) :
  Re.sub_scheme ("https://" ++ x)
  = match drop_prefix "www." x with Some r => r | None => x end.
Proof. reflexivity. Qed.

Lemma sub_scheme_http_www (x : string) :
  Re.sub_scheme ("http://www." ++ x) = x.
Proof. reflexivity. Qed.

(** X3: the scheme does not matter, [https://] and [http://] in front of
    the same rest give one canonical form; and neither does a [www.]
    directly behind the scheme, unless the rest starts with a second
    [www.]. *)
Theorem canonicalize_url_ignores_scheme :
  (forall u,
     canonicalize_url ("https://" ++ u) = canonicalize_url ("http://" ++ u))
  /\ (forall u,
       drop_prefix "www." (lower (rstrip u)) = None ->
       canonicalize_url ("http://www." ++ u)
       = canonicalize_url ("http://" ++ u)).
Proof.
  split.
  - intros u. unfold canonicalize_url.
    rewrite strip_https, strip_http, !lower_app.
    change (lower "https://") with "https://".
    change (lower "http://") with "http://".
    now rewrite sub_scheme_https, sub_scheme_http.
  - intros u H. unfold canonicalize_url.
    rewrite strip_http_www, strip_http, !lower_app.
    change (lower "http://www.") with "http://www.".
    change (lower "http://") with "http://".
    now rewrite sub_scheme_http_www, sub_scheme_http, H.
Qed.

Lemma canonicalize_url_ignores_scheme_witness :
  canonicalize_url ("http://www." ++ "a.com/x")
  = canonicalize_url ("http://" ++ "a.com/x").
Proof. apply (proj2 canonicalize_url_ignores_scheme). reflexivity. Defined.

(** X4: a [www.] without scheme in front of it is kept: the canonical form
    of such a url still starts with [www.], so it differs from the
    canonical form of the same url with a scheme. *)
Theorem canonicalize_url_keeps_bare_www (v : string) :
  exists rest, canonicalize_url ("www." ++ v) = "www." ++ rest.
Proof.
  unfold canonicalize_url. rewrite strip_www, lower_app.
  change (lower "www.") with "www.".
  set (x := lower (rstrip v)).
  change (Re.sub_scheme ("www." ++ x)) with ("www." ++ x).
  change (Re.sub_query ("www." ++ x)) with ("www." ++ Re.sub_query x).
  set (y := Re.sub_query x).
  destruct (endswith_slash ("www." ++ y)) eqn:E.
  - destruct y as [|c y]; [discriminate|].
    exists (drop_last (String c y)). reflexivity.
  - now exists y.
Qed.

End CanonicalForms.

(* ------------------------------------------------------------------ *)
(** ** What deduplicate keeps *)
(* ------------------------------------------------------------------ *)

Section DeduplicateKeeps.

Lemma add_key_fresh (ks : list string) (k : string) :
  ~ In k ks -> add_key ks k = ks ++ [k].
Proof.
  intros H. unfold add_key. apply set_mem_not_In in H. now rewrite H.
Qed.

Lemma add_key_seen (ks : list string) (k : string) :
  In k ks -> add_key ks k = ks.
Proof.
  intros H. unfold add_key. apply set_mem_In in H. now rewrite H.
Qed.

(** The keys of what the loop keeps are the new keys in first-seen
    order. *)
Lemma keep_first_keys (h : Heap) (results : list loc) :
  forall acc seen,
    (forall k, In k acc <-> In k seen) ->
    fold_left add_key (keys_of h results) acc
    = acc ++ keys_of h (keep_first h results seen).
Proof.
  unfold keys_of.
  induction results as [|r rest IH]; intros acc seen Hm; simpl.
  - now rewrite app_nil_r.
  - destruct (set_mem (dedup_key h r) seen) eqn:E.
    + apply set_mem_In in E. rewrite add_key_seen by now apply Hm.
      now apply IH.
    + apply set_mem_not_In in E.
      rewrite add_key_fresh by (intros H; apply E; now apply Hm).
      rewrite (IH (acc ++ [dedup_key h r]) (dedup_key h r :: seen)).
      * simpl. now rewrite <- app_assoc.
      * intros k. rewrite in_app_iff. simpl. rewrite Hm. tauto.
Qed.

(** A survivor is the first result of the input with its key. *)
Lemma keep_first_is_first (h : Heap) (results : list loc) :
  forall seen r,
    In r (keep_first h results seen) -> first_with_key h r results = Some r.
Proof.
  unfold first_with_key.
  induction results as [|x rest IH]; intros seen r Hr; [destruct Hr|].
  cbn [keep_first] in Hr. cbn [find].
  destruct (set_mem (dedup_key h x) seen) eqn:E.
  - pose proof (keep_first_key_fresh _ _ _ _ Hr) as Hf.
    apply set_mem_In in E.
    destruct (String.eqb_spec (dedup_key h x) (dedup_key h r)) as [He|_].
    + exfalso. apply Hf. now rewrite <- He.
    + exact (IH _ _ Hr).
  - destruct Hr as [->|Hr]; [now rewrite String.eqb_refl|].
    pose proof (keep_first_key_fresh _ _ _ _ Hr) as Hf.
    destruct (String.eqb_spec (dedup_key h x) (dedup_key h r)) as [He|_].
    + exfalso. apply Hf. now left.
    + exact (IH _ _ Hr).
Qed.

(** X5: whatever the urls, the keys of the results [deduplicate] returns
    are the distinct keys of its input in the order of their first
    occurrence, every returned result is the first result of the input
    with its key, and no result is returned twice. *)
Theorem deduplicate_keeps_first_of_each_key (results : list loc) (h : Heap) :
  keys_of h (fst (deduplicate results h)) = first_seen (keys_of h results)
  /\ (forall r, In r (fst (deduplicate results h)) ->
        first_with_key h r results = Some r)
  /\ NoDup (fst (deduplicate results h)).
Proof.
  rewrite deduplicate_unfold. cbn [fst]. split; [|split].
  - unfold first_seen.
    rewrite (keep_first_keys h results [] [] (fun k => iff_refl _)).
    reflexivity.
  - intros r. apply keep_first_is_first.
  - apply keep_first_NoDup.
Qed.

(** X6: where no url canonicalises to a key made up for a result without
    url, [deduplicate] keeps exactly the first result of every document
    (same canonical url, or the same object when there is no url), in the
    order of the input, and numbers the survivors 1, 2, ... *)
Theorem deduplicate_keeps_first_document (results : list loc) (h : Heap) :
  no_clash h results -> valid h results ->
  fst (deduplicate results h) = keep_first_document h results []
  /\ ranks_of (snd (deduplicate results h)) (fst (deduplicate results h))
     = count_from 1%Z (List.length (fst (deduplicate results h))).
Proof.
  intros Hc Hv. split.
  - rewrite deduplicate_unfold. cbn [fst].
    apply (keep_first_refines (all := results) Hc (incl_refl _) (kept := [])).
    intros x [].
  - destruct (deduplicate_in_place results h) as (_ & _ & _ & _ & H).
    now apply H.
Qed.

Lemma deduplicate_keeps_first_document_witness :
  fst (deduplicate [0; 1; 2]%nat heap_three_empty)
    = keep_first_document heap_three_empty [0; 1; 2]%nat [].
Proof.
  apply deduplicate_keeps_first_document.
  - intros r r' _ Hr' _ Hu. exfalso.
    destruct Hr' as [<-|[<-|[<-|[]]]]; discriminate.
  - repeat constructor.
Defined.

End DeduplicateKeeps.

(* ------------------------------------------------------------------ *)
(** ** What minmax_normalize_scores keeps *)
(* ------------------------------------------------------------------ *)

Section MinMaxKeeps.

Local Open Scope Q_scope.

Lemma same_but_score_refl (r : Result) : same_but_score r r.
Proof. repeat split. Qed.

Lemma same_but_score_trans (a b c : Result) :
  same_but_score a b -> same_but_score b c -> same_but_score a c.
Proof.
  unfold same_but_score. intros (?&?&?&?&?) (?&?&?&?&?).
  repeat split; congruence.
Qed.

Lemma setitem_score_frame (h : Heap) (l l' : loc) (x : Q) :
  same_but_score (deref h l') (deref (setitem_score h l x) l').
Proof.
  destruct (Nat.eq_dec l l') as [<-|Hne].
  - destruct (Nat.lt_ge_cases l (List.length h)) as [Hlt|Hge].
    + rewrite deref_setitem_score_same by exact Hlt. repeat split.
    + unfold setitem_score. rewrite store_out_of_range by exact Hge.
      repeat split.
  - rewrite deref_setitem_score_other by exact Hne. repeat split.
Qed.

Lemma length_setitem_score (h : Heap) (l : loc) (x : Q) :
  List.length (setitem_score h l x) = List.length h.
Proof. apply length_store. Qed.

Lemma set_all_one_frame (results : list loc) :
  forall h l,
    same_but_score (deref h l) (deref (set_all_one results h) l)
    /\ List.length (set_all_one results h) = List.length h.
Proof.
  induction results as [|x rest IH]; intros h l; simpl.
  - split; [apply same_but_score_refl | reflexivity].
  - destruct (score (deref h x)); [|apply IH].
    destruct (IH (setitem_score h x 1) l) as [H1 H2]. split.
    + eapply same_but_score_trans; [apply setitem_score_frame | exact H1].
    + now rewrite H2, length_setitem_score.
Qed.

Lemma rescale_frame (lo rng : Q) (results : list loc) :
  forall h l,
    same_but_score (deref h l) (deref (rescale lo rng results h) l)
    /\ List.length (rescale lo rng results h) = List.length h.
Proof.
  induction results as [|x rest IH]; intros h l; simpl.
  - split; [apply same_but_score_refl | reflexivity].
  - destruct (score (deref h x)) as [s|]; [|apply IH].
    destruct (IH (setitem_score h x ((s - lo) / rng)) l) as [H1 H2]. split.
    + eapply same_but_score_trans; [apply setitem_score_frame | exact H1].
    + now rewrite H2, length_setitem_score.
Qed.

Lemma set_all_one_present (results : list loc) :
  forall h r s,
    score (deref h r) = Some s ->
    exists s', score (deref (set_all_one results h) r) = Some s'.
Proof.
  induction results as [|x rest IH]; intros h r s Hs; simpl; [eauto|].
  destruct (score (deref h x)) eqn:E; [|exact (IH _ _ _ Hs)].
  destruct (Nat.eq_dec x r) as [->|Hne].
  - apply (IH _ r 1).
    rewrite deref_setitem_score_same; [reflexivity|].
    exact (scored_is_allocated h r Hs).
  - apply (IH _ r s). now rewrite deref_setitem_score_other.
Qed.

Lemma rescale_present (lo rng : Q) (results : list loc) :
  forall h r s,
    score (deref h r) = Some s ->
    exists s', score (deref (rescale lo rng results h) r) = Some s'.
Proof.
  induction results as [|x rest IH]; intros h r s Hs; simpl; [eauto|].
  destruct (score (deref h x)) as [sx|] eqn:E; [|exact (IH _ _ _ Hs)].
  destruct (Nat.eq_dec x r) as [->|Hne].
  - apply (IH _ r ((sx - lo) / rng)).
    rewrite deref_setitem_score_same; [reflexivity|].
    exact (scored_is_allocated h r Hs).
  - apply (IH _ r s). now rewrite deref_setitem_score_other.
Qed.

Lemma absent_iff (h h1 : Heap) (l : loc) :
  (score (deref h l) = None -> score (deref h1 l) = None) ->
  (forall s, score (deref h l) = Some s ->
     exists s', score (deref h1 l) = Some s') ->
  (score (deref h l) = None <-> score (deref h1 l) = None).
Proof.
  intros Hn Hs. split; [exact Hn|]. intros H1.
  destruct (score (deref h l)) as [s|] eqn:E; [|reflexivity].
  destruct (Hs s eq_refl) as [s' Hs']. congruence.
Qed.

(** X7: [minmax_normalize_scores] returns the list it was given, creates
    no object, writes no field but [score], turns no absent score into a
    present one nor a present one into an absent one, and leaves every
    object outside the list as it was. *)
Theorem minmax_normalize_scores_frame (results : list loc) (h : Heap) :
  let h' := snd (minmax_normalize_scores results h) in
  fst (minmax_normalize_scores results h) = results
  /\ List.length h' = List.length h
  /\ (forall l, same_but_score (deref h l) (deref h' l))
  /\ (forall l, score (deref h l) = None <-> score (deref h' l) = None)
  /\ (forall l, ~ In l results -> deref h' l = deref h l).
Proof.
  unfold minmax_normalize_scores.
  destruct (collect_scores h results) as [|s0 ss] eqn:Hc.
  { cbn. repeat split; auto; apply same_but_score_refl. }
  destruct (Qeq_bool (py_max s0 ss) (py_min s0 ss)); cbn [fst snd].
  - split; [reflexivity|].
    split; [apply (set_all_one_frame results h 0%nat)|].
    split; [intros l; apply set_all_one_frame|].
    split; [|intros l; apply set_all_one_other].
    intros l. apply absent_iff.
    + apply set_all_one_None.
    + intros s. apply set_all_one_present.
  - split; [reflexivity|].
    split; [apply (rescale_frame _ _ results h 0%nat)|].
    split; [intros l; apply rescale_frame|].
    split; [|intros l; apply rescale_other].
    intros l. apply absent_iff.
    + apply rescale_None.
    + intros s. apply rescale_present.
Qed.



End MinMaxKeeps.

(* ------------------------------------------------------------------ *)
(** ** More about the fusion functions *)
(* ------------------------------------------------------------------ *)

Section FusionMore.

Local Open Scope Q_scope.







(** *** One list, already in order *)











End FusionMore.

(* ------------------------------------------------------------------ *)
(** ** Ranked lists in a growing heap *)
(* ------------------------------------------------------------------ *)

Section RankedLists.

Lemma count_from_app (a b : nat) :
  forall i,
    count_from i (a + b)
    = count_from i a ++ count_from (i + Z.of_nat a)%Z b.
Proof.
  induction a as [|a IH]; intros i.
  - simpl. now rewrite Z.add_0_r.
  - cbn [Nat.add count_from app]. rewrite IH. do 3 f_equal. lia.
Qed.

Lemma length_count_from (n : nat) : forall i, List.length (count_from i n) = n.
Proof. induction n as [|n IH]; intros i; simpl; [reflexivity | now rewrite IH]. Qed.


Lemma valid_app_heap (h recs : Heap) (ls : list loc) :
  valid h ls -> valid (h ++ recs) ls.
Proof.
  unfold valid. rewrite !Forall_forall. intros H l Hl.
  rewrite length_app. specialize (H l Hl). lia.
Qed.

Lemma ranks_of_app_heap (h recs : Heap) (ls : list loc) :
  valid h ls -> ranks_of (h ++ recs) ls = ranks_of h ls.
Proof.
  unfold valid, ranks_of. rewrite Forall_forall. intros H.
  apply map_ext_in. intros l Hl. now rewrite deref_app_old by now apply H.
Qed.

Lemma ranked_app_heap (h recs : Heap) (bag : list loc) :
  ranked h bag -> ranked (h ++ recs) bag.
Proof.
  intros [Hv Hr]. split; [now apply valid_app_heap|].
  now rewrite ranks_of_app_heap.
Qed.

Lemma valid_seq (h recs : Heap) :
  valid (h ++ recs) (seq (List.length h) (List.length recs)).
Proof.
  unfold valid. rewrite Forall_forall. intros l Hl. apply in_seq in Hl.
  rewrite length_app. lia.
Qed.

(** New objects whose ranks count from 1 make a ranked list. *)
Lemma ranked_appended (h recs : Heap) :
  map rank recs = count_from 1%Z (List.length recs) ->
  ranked (h ++ recs) (seq (List.length h) (List.length recs)).
Proof.
  intros H. split; [apply valid_seq|].
  unfold ranks_of. rewrite <- (map_map (deref (h ++ recs)) rank).
  rewrite map_deref_appended, length_seq. exact H.
Qed.


Lemma allocated_untouched (h : Heap) (bag : list loc) (h' : Heap) :
  allocated h bag h' -> input_untouched h h'.
Proof.
  intros (recs & -> & _). unfold input_untouched.
  rewrite firstn_app, Nat.sub_diag, firstn_all. simpl. apply app_nil_r.
Qed.

Lemma map_Some_range (lo : Z) (n : nat) :
  map Some (map (fun m => (lo + Z.of_nat m)%Z) (seq 0 n)) = count_from lo n.
Proof.
  revert lo. induction n as [|n IH]; intros lo; [reflexivity|].
  cbn [seq map count_from]. rewrite Z.add_0_r. f_equal.
  rewrite <- seq_shift, map_map, <- IH, !map_map.
  apply map_ext. intros m. f_equal. lia.
Qed.

Lemma py_range_In (lo hi i : Z) :
  In i (py_range lo hi) <-> (lo <= i < hi)%Z.
Proof.
  unfold py_range. rewrite in_map_iff. split.
  - intros [n [<- Hn]]. apply in_seq in Hn. lia.
  - intros H. exists (Z.to_nat (i - lo)). split; [lia|].
    apply in_seq. lia.
Qed.


Lemma length_py_range (lo hi : Z) :
  List.length (py_range lo hi) = Z.to_nat (hi - lo).
Proof. unfold py_range. now rewrite length_map, length_seq. Qed.




End RankedLists.

(* ------------------------------------------------------------------ *)
(** ** _mock_source *)
(* ------------------------------------------------------------------ *)

Section MockSource.

Local Open Scope Q_scope.

Variable title_of : Z -> string.
Variables name query kind : string.
Variable decay_shift : Q.

Local Abbreviation item_of := (mock_item title_of name query kind decay_shift).
Local Abbreviation result_of :=
  (mock_result title_of name query kind decay_shift).

Lemma mock_rounds (ns : list Z) :
  forall bag h,
    (forall i, In i ns -> ~ inject_Z i + decay_shift == 0) ->
    for_each item_of ns (bag, h)
    = Some (bag ++ seq (List.length h) (List.length ns),
            h ++ map result_of ns).
Proof.
  induction ns as [|i ns IH]; intros bag h Hnz.
  - simpl. now rewrite !app_nil_r.
  - cbn [for_each]. unfold mock_item at 1.
    assert (E : Qeq_bool (inject_Z i + decay_shift) 0 = false).
    { apply not_true_iff_false. intros H. apply Qeq_bool_iff in H.
      now apply (Hnz i (or_introl eq_refl)). }
    rewrite E. unfold alloc.
    rewrite IH by (intros j Hj; apply Hnz; now right).
    f_equal. f_equal.
    + rewrite <- app_assoc. cbn [app List.length seq]. do 2 f_equal.
      rewrite length_app. simpl. f_equal. lia.
    + now rewrite <- app_assoc.
Qed.

Lemma mock_raises (ns : list Z) :
  forall st,
    (exists i, In i ns /\ inject_Z i + decay_shift == 0) ->
    for_each item_of ns st = None.
Proof.
  induction ns as [|j ns IH]; intros st [i [Hin Hz]]; [destruct Hin|].
  cbn [for_each]. unfold mock_item at 1.
  destruct (Qeq_bool (inject_Z j + decay_shift) 0) eqn:E; [reflexivity|].
  destruct st as [bag h]. unfold alloc. apply IH.
  destruct Hin as [->|Hin]; [|eauto].
  apply Qeq_bool_iff in Hz. congruence.
Qed.



Lemma mock_url_nonempty (i : Z) : mock_url name kind i <> EmptyString.
Proof. unfold mock_url. discriminate. Qed.

Lemma ranks_mock_results (top_k : Z) :
  map rank (map result_of (py_range 1 (top_k + 1)))
  = count_from 1%Z (List.length (map result_of (py_range 1 (top_k + 1)))).
Proof.
  rewrite map_map, length_map, length_py_range. unfold py_range.
  rewrite <- map_Some_range, !map_map. reflexivity.
Qed.

(** For a decay shift above -1 the mock source returns a ranked list of
    [top_k] new results. *)
Lemma mock_source_ranked (top_k : Z) (h : Heap) :
  -1 < decay_shift ->
  exists bag h',
    mock_source title_of name query top_k kind decay_shift h = Some (bag, h')
    /\ allocated h bag h'
    /\ List.length bag = Z.to_nat top_k
    /\ ranked h' bag.
Proof.
  intros Hshift. unfold mock_source.
  set (ns := py_range 1 (top_k + 1)).
  rewrite mock_rounds.
  - set (recs := map result_of ns).
    assert (Hlen : List.length recs = List.length ns) by apply length_map.
    exists (seq (List.length h) (List.length ns)), (h ++ recs). simpl.
    split; [reflexivity|].
    split; [exists recs; now rewrite Hlen|].
    split; [rewrite length_seq; unfold ns; rewrite length_py_range;
            f_equal; lia|].
    rewrite <- Hlen. apply ranked_appended. apply ranks_mock_results.
  - intros i Hi E. apply py_range_In in Hi.
    assert (H1 : 1 <= inject_Z i) by (rewrite <- (Zle_Qle 1); lia). lra.
Qed.


(** X13: [_mock_source] raises exactly when [i + decay_shift] is zero for
    one of the ranks i = 1, ..., top_k. *)
Theorem mock_source_raises_iff (top_k : Z) (h : Heap) :
  mock_source title_of name query top_k kind decay_shift h = None
  <-> exists i, (1 <= i <= top_k)%Z /\ inject_Z i + decay_shift == 0.
Proof.
  unfold mock_source. split.
  - intros Hnone.
    destruct (existsb (fun i => Qeq_bool (inject_Z i + decay_shift) 0)
                (py_range 1 (top_k + 1))) eqn:E.
    + apply existsb_exists in E. destruct E as [i [Hi Hz]].
      apply py_range_In in Hi. apply Qeq_bool_iff in Hz.
      exists i. split; [lia | exact Hz].
    + rewrite mock_rounds in Hnone; [discriminate|].
      intros i Hi Hz. apply Qeq_bool_iff in Hz.
      assert (Ht : existsb (fun i => Qeq_bool (inject_Z i + decay_shift) 0)
                     (py_range 1 (top_k + 1)) = true).
      { apply existsb_exists. eauto. }
      congruence.
  - intros [i [Hi Hz]]. apply mock_raises. exists i. split; [|exact Hz].
    apply py_range_In. lia.
Qed.

End MockSource.


(* ------------------------------------------------------------------ *)
(** ** serpapi_search and google_cse_search *)
(* ------------------------------------------------------------------ *)

Section RemoteAdapters.

Lemma serpapi_loop_appends (label : string) (candidates : list SerpItem) :
  forall i results h,
    exists recs,
      serpapi_loop label candidates i results h
      = (results ++ seq (List.length h) (List.length candidates), h ++ recs)
      /\ List.length recs = List.length candidates
      /\ map rank recs = count_from i (List.length candidates)
      /\ Forall adapter_record recs.
Proof.
  induction candidates as [|it rest IH]; intros i results h.
  - exists []. simpl. rewrite !app_nil_r. repeat split. constructor.
  - cbn [serpapi_loop]. unfold alloc. cbv beta iota zeta.
    match goal with
    | |- context [serpapi_loop label rest ?j ?res ?hh] =>
        destruct (IH j res hh) as (recs & E & Hlen & Hr & Hf)
    end.
    rewrite E. exists (serp_result label it i :: recs). split.
    + f_equal.
      * rewrite <- app_assoc. cbn [app List.length seq]. do 2 f_equal.
        rewrite length_app. simpl. f_equal. lia.
      * now rewrite <- app_assoc.
    + split; [simpl; now rewrite Hlen|].
      split; [simpl; now rewrite Hr|].
      constructor; [|exact Hf]. repeat split; discriminate.
Qed.

Lemma length_slice_to (A : Type) (l : list A) (n : Z) :
  (0 <= n)%Z -> List.length (slice_to l n) <= Z.to_nat n.
Proof.
  intros H. unfold slice_to.
  destruct (Z.leb_spec 0 n) as [_|Hn]; [|lia].
  rewrite length_firstn. lia.
Qed.

Lemma adapter_records_in (h recs : Heap) (a : loc) :
  Forall adapter_record recs ->
  In a (seq (List.length h) (List.length recs)) ->
  adapter_record (deref (h ++ recs) a).
Proof.
  intros Hf Ha. rewrite Forall_forall in Hf. apply Hf.
  rewrite <- (map_deref_appended h recs) at 2. now apply in_map.
Qed.

(** What [serpapi_search] returns is a ranked list of new results. *)
Lemma serpapi_search_ranked (key : string) (capitalize : string -> string)
    (response : option SerpData) (engine : string) (top_k : Z) (h : Heap)
    (bag : list loc) (h' : Heap) :
  serpapi_search key capitalize response engine top_k h = Some (bag, h') ->
  allocated h bag h' /\ ranked h' bag.
Proof.
  unfold serpapi_search. destruct (Str.is_empty key); [discriminate|].
  destruct response as [data|]; [|discriminate].
  destruct (serpapi_loop_appends
              (String.append "SerpApi/" (capitalize engine))
              (slice_to (serp_candidates data) top_k) 1%Z [] h)
    as (recs & E & Hlen & Hr & _).
  rewrite E. simpl. intros [= <- <-]. rewrite <- Hlen in *.
  split; [now exists recs | now apply ranked_appended].
Qed.

(** X14: [serpapi_search] raises exactly when the key is empty or the
    request fails.  Otherwise it returns new results, at most [top_k] of
    them for a [top_k] that is not negative, with ranks 1, 2, ... in list
    order, a url (maybe empty) and no score, and changes no other
    object. *)
Theorem serpapi_search_returns (key : string)
    (capitalize : string -> string) (response : option SerpData)
    (engine : string) (top_k : Z) (h : Heap) :
  (serpapi_search key capitalize response engine top_k h = None
   <-> key = EmptyString \/ response = None)
  /\ forall bag h',
      serpapi_search key capitalize response engine top_k h = Some (bag, h') ->
      allocated h bag h' /\ ranked h' bag
      /\ (forall a, In a bag -> adapter_record (deref h' a))
      /\ ((0 <= top_k)%Z -> List.length bag <= Z.to_nat top_k).
Proof.
  unfold serpapi_search. split.
  - destruct key as [|c key]; simpl; [tauto|].
    destruct response as [data|].
    + split; [discriminate | intros [H|H]; discriminate].
    + split; [intros _; now right | reflexivity].
  - intros bag h'. destruct (Str.is_empty key); [discriminate|].
    destruct response as [data|]; [|discriminate].
    set (cands := slice_to (serp_candidates data) top_k).
    destruct (serpapi_loop_appends
                (String.append "SerpApi/" (capitalize engine)) cands 1%Z [] h)
      as (recs & E & Hlen & Hr & Hf).
    rewrite E. simpl. intros [= <- <-]. rewrite <- Hlen in *.
    split; [now exists recs|].
    split; [now apply ranked_appended|].
    split; [intros a Ha; now apply adapter_records_in|].
    intros Hk. rewrite length_seq, Hlen. now apply length_slice_to.
Qed.

Lemma serpapi_search_returns_witness :
  exists bag h',
    serpapi_search "key" (fun s => s) (Some serp_data) "google" 2 []
      = Some (bag, h')
    /\ ranked h' bag /\ List.length bag <= 2.
Proof.
  exists [0; 1], (snd (serpapi_loop "SerpApi/google"
                        (slice_to (serp_candidates serp_data) 2) 1%Z [] [])).
  split; [reflexivity|].
  destruct (serpapi_search_returns "key" (fun s => s) (Some serp_data)
              "google" 2 []) as [_ H].
  destruct (H [0; 1] _ eq_refl) as (_ & Hr & _ & Hl).
  split; [exact Hr | apply Hl; discriminate].
Defined.

(** *** The paging loop *)

Lemma cse_append_appends (items : list CseItem) :
  forall results h,
    exists recs,
      cse_append items results h
      = (results ++ seq (List.length h) (List.length items), h ++ recs)
      /\ List.length recs = List.length items
      /\ map rank recs
         = count_from (Z.of_nat (List.length results) + 1)%Z
             (List.length items)
      /\ Forall adapter_record recs.
Proof.
  induction items as [|it rest IH]; intros results h.
  - exists []. simpl. rewrite !app_nil_r. repeat split. constructor.
  - cbn [cse_append]. unfold alloc. cbv beta iota zeta.
    set (r := cse_result it (Z.of_nat (List.length results) + 1)%Z).
    match goal with
    | |- context [cse_append rest ?res ?hh] =>
        destruct (IH res hh) as (recs & E & Hlen & Hr & Hf)
    end.
    rewrite E. exists (r :: recs). split.
    + f_equal.
      * rewrite <- app_assoc. cbn [app List.length seq]. do 2 f_equal.
        rewrite length_app. simpl. f_equal. lia.
      * now rewrite <- app_assoc.
    + split; [simpl; now rewrite Hlen|]. split.
      * simpl. rewrite Hr. do 2 f_equal. rewrite length_app. simpl. lia.
      * constructor; [|exact Hf]. repeat split; discriminate.
Qed.

(** What holds of the results gathered so far, and of those returned. *)
Lemma cse_loop_invariant (fetch : CseFetch) (h0 : Heap) (top : Z) :
  forall fuel recs0 remaining start,
    Z.to_nat remaining <= fuel ->
    map rank recs0 = count_from 1%Z (List.length recs0) ->
    Forall adapter_record recs0 ->
    match cse_loop fuel fetch (seq (List.length h0) (List.length recs0))
            (h0 ++ recs0) remaining start with
    | Returned (bag, h') =>
        exists recs,
          h' = h0 ++ recs /\ bag = seq (List.length h0) (List.length recs)
          /\ map rank recs = count_from 1%Z (List.length recs)
          /\ Forall adapter_record recs
          /\ (honours_num fetch -> (0 <= remaining)%Z ->
              (Z.of_nat (List.length recs0) + remaining <= top)%Z ->
              (Z.of_nat (List.length recs) <= top)%Z)
    | Raised => True
    | OutOfFuel => False
    end.
Proof.
  induction fuel as [|fuel IH]; intros recs0 remaining start Hfuel Hr Hf.
  - cbn [cse_loop]. destruct (Z.gtb_spec remaining 0) as [Hpos|Hle]; [lia|].
    exists recs0. repeat split; auto. intros _ H0 H1. lia.
  - cbn [cse_loop]. destruct (Z.gtb_spec remaining 0) as [Hpos|Hle].
    2:{ exists recs0. repeat split; auto. intros _ H0 H1. lia. }
    destruct (fetch (Z.min 10 remaining) start) as [data|] eqn:Ef; [|exact I].
    set (items := list_or data []).
    destruct (cse_append_appends items
                (seq (List.length h0) (List.length recs0)) (h0 ++ recs0))
      as (recs & E & Hlen & Hrk & Hfa).
    rewrite E. rewrite length_seq in Hrk.
    assert (Hseq : @app loc (seq (List.length h0) (List.length recs0))
                     (seq (List.length (h0 ++ recs0)) (List.length items))
                   = seq (List.length h0) (List.length (recs0 ++ recs))).
    { rewrite !length_app, Hlen, seq_app. reflexivity. }
    assert (Hrk' : map rank (recs0 ++ recs)
                   = count_from 1%Z (List.length (recs0 ++ recs))).
    { rewrite map_app, length_app, count_from_app, Hr, Hrk, Hlen.
      do 2 f_equal. lia. }
    assert (Hf' : Forall adapter_record (recs0 ++ recs))
      by (apply Forall_app; now split).
    assert (Hhon : honours_num fetch ->
              (Z.of_nat (List.length items) <= Z.min 10 remaining)%Z).
    { intros Hh. unfold items. destruct data as [[|x l]|]; simpl; try lia.
      apply (Hh _ _ _ Ef). }
    rewrite Hseq, <- app_assoc.
    destruct (Z.eqb_spec (Z.of_nat (List.length items)) 0) as [H0|Hgot].
    + exists (recs0 ++ recs). repeat split; auto.
      intros _ _ H1. rewrite length_app, Hlen. lia.
    + destruct (Z.gtb_spec (start + Z.of_nat (List.length items)) 100)
        as [Hbig|Hsmall].
      * exists (recs0 ++ recs). repeat split; auto.
        intros Hh _ H1. specialize (Hhon Hh). rewrite length_app, Hlen. lia.
      * specialize (IH (recs0 ++ recs)
                      (remaining - Z.of_nat (List.length items))%Z
                      (start + Z.of_nat (List.length items))%Z).
        destruct (cse_loop fuel fetch _ _ _ _) as [[bag h']| |];
          try (apply IH; auto; lia).
        destruct IH as (recs1 & -> & -> & Hr1 & Hf1 & Hb); auto; [lia|].
        exists recs1. repeat split; auto.
        intros Hh Hrem H1. specialize (Hhon Hh). apply Hb; auto; [lia|].
        rewrite length_app, Hlen. lia.
Qed.

(** What [google_cse_search] returns is a ranked list of new results. *)
Lemma google_cse_search_ranked (fetch : CseFetch) (top_k : Z) (h : Heap)
    (bag : list loc) (h' : Heap) :
  google_cse_search fetch top_k h = Returned (bag, h') ->
  allocated h bag h' /\ ranked h' bag.
Proof.
  unfold google_cse_search.
  destruct (Z.leb_spec top_k 0) as [Hle|Hpos].
  - intros [= <- <-].
    split; [exists []; now rewrite app_nil_r | split; constructor].
  - pose proof (@cse_loop_invariant fetch h top_k (Z.to_nat top_k) [] top_k
                  1%Z (le_n _) eq_refl (Forall_nil _)) as Hinv.
    cbn [List.length seq] in Hinv. rewrite app_nil_r in Hinv.
    unfold loc in *. intros E. rewrite E in Hinv.
    destruct Hinv as (recs & -> & -> & Hr & _).
    split; [now exists recs | now apply ranked_appended].
Qed.

(** X15: [google_cse_search] ends within [top_k] rounds.  For a [top_k]
    of 0 or less it returns the empty list without a request.  What it
    returns are new results with ranks 1, 2, ... in list order across all
    pages, a url (maybe empty) and no score; and when no page holds more
    items than were asked for, there are at most [top_k] of them. *)
Theorem google_cse_search_returns (fetch : CseFetch) (top_k : Z) (h : Heap) :
  google_cse_search fetch top_k h <> OutOfFuel
  /\ ((top_k <= 0)%Z -> google_cse_search fetch top_k h = Returned ([], h))
  /\ forall bag h',
      google_cse_search fetch top_k h = Returned (bag, h') ->
      allocated h bag h' /\ ranked h' bag
      /\ (forall a, In a bag -> adapter_record (deref h' a))
      /\ (honours_num fetch -> List.length bag <= Z.to_nat top_k).
Proof.
  unfold google_cse_search.
  destruct (Z.leb_spec top_k 0) as [Hle|Hpos].
  - split; [discriminate|]. split; [reflexivity|].
    intros bag h' [= <- <-].
    split; [exists []; now rewrite app_nil_r|].
    split; [split; constructor|].
    split; [intros a []|]. intros _. simpl. lia.
  - pose proof (@cse_loop_invariant fetch h top_k (Z.to_nat top_k) [] top_k
                  1%Z (le_n _) eq_refl (Forall_nil _)) as Hinv.
    cbn [List.length seq] in Hinv. rewrite app_nil_r in Hinv.
    unfold loc in *.
    split; [intros E; now rewrite E in Hinv|].
    split; [lia|].
    intros bag h' E. rewrite E in Hinv.
    destruct Hinv as (recs & -> & -> & Hr & Hf & Hb).
    split; [now exists recs|].
    split; [now apply ranked_appended|].
    split; [intros a Ha; now apply adapter_records_in|].
    intros Hh. rewrite length_seq.
    assert (H : (Z.of_nat (List.length recs) <= top_k)%Z) by (apply Hb; auto; lia).
    lia.
Qed.

Lemma google_cse_search_returns_witness :
  exists bag h',
    google_cse_search cse_single 3 [] = Returned (bag, h')
    /\ ranked h' bag /\ List.length bag <= 3.
Proof.
  destruct (google_cse_search cse_single 3 []) as [[bag h']| |] eqn:E;
    try discriminate.
  exists bag, h'. split; [reflexivity|].
  destruct (google_cse_search_returns cse_single 3 []) as (_ & _ & H).
  destruct (H bag h' E) as (_ & Hr & _ & Hl).
  split; [exact Hr|]. apply Hl.
  intros num start items. unfold cse_single.
  destruct (Z.leb_spec 1 num) as [Hn|Hn]; intros [= <-]. simpl. lia.
Defined.

End RemoteAdapters.

(* ------------------------------------------------------------------ *)
(** ** get_results_from_sources *)
(* ------------------------------------------------------------------ *)

Section Dispatcher.

Lemma input_untouched_app (h h' : Heap) :
  input_untouched h h' <-> exists recs, h' = h ++ recs.
Proof.
  unfold input_untouched. split.
  - intros H. exists (skipn (List.length h) h').
    rewrite <- H at 1. symmetry. apply firstn_skipn.
  - intros [recs ->].
    rewrite firstn_app, Nat.sub_diag, firstn_all. simpl. apply app_nil_r.
Qed.

Lemma input_untouched_refl (h : Heap) : input_untouched h h.
Proof. apply input_untouched_app. exists []. now rewrite app_nil_r. Qed.

Lemma input_untouched_trans (h1 h2 h3 : Heap) :
  input_untouched h1 h2 -> input_untouched h2 h3 -> input_untouched h1 h3.
Proof.
  rewrite !input_untouched_app. intros [r1 ->] [r2 ->].
  exists (r1 ++ r2). now rewrite app_assoc.
Qed.

(** Appending a freshly made ranked list keeps the invariant. *)
Lemma dispatched_append (h0 : Heap) (n : nat) (bags : list (list loc))
    (used_any : bool) (h : Heap) (bag : list loc) (h' : Heap) :
  dispatched h0 n (bags, used_any, h) ->
  allocated h bag h' -> ranked h' bag ->
  dispatched h0 (S n) (bags ++ [bag], true, h').
Proof.
  intros (Hu & Hr & Hl & _) Ha Hb. unfold dispatched.
  pose proof (allocated_untouched Ha) as Hext.
  split; [eapply input_untouched_trans; eassumption|].
  split.
  - apply Forall_app. split; [|now constructor].
    apply input_untouched_app in Hext. destruct Hext as [recs ->].
    eapply Forall_impl; [|exact Hr]. intros b. apply ranked_app_heap.
  - split; [rewrite length_app; simpl; lia|].
    split; [intros _ E; now destruct bags | reflexivity].
Qed.

Lemma dispatched_weaken (h0 : Heap) (n m : nat) (st : dispatch_state) :
  n <= m -> dispatched h0 n st -> dispatched h0 m st.
Proof.
  destruct st as [[bags used] h]. intros Hnm (H1 & H2 & H3 & H4).
  repeat split; auto; try apply H4. lia.
Qed.

Lemma serpapi_round_dispatched (cfg : Config) (capitalize : string -> string)
    (net : Network) (top_k : Z) (h0 : Heap) (n : nat) (st : dispatch_state)
    (entry : string * string) :
  dispatched h0 n st ->
  dispatched h0 (S n) (serpapi_round cfg capitalize net top_k st entry).
Proof.
  intros Hd. destruct st as [[bags used] h]. destruct entry as [cfg_name eng].
  unfold serpapi_round.
  destruct (set_mem cfg_name ENABLED_ENGINES);
    [|(apply dispatched_weaken with (n := n); [lia | exact Hd])].
  destruct (serpapi_search (SERPAPI_KEY cfg) capitalize
              (serp_response net eng) eng top_k h) as [[bag h']|] eqn:E;
    [|(apply dispatched_weaken with (n := n); [lia | exact Hd])].
  destruct (serpapi_search_ranked _ _ _ _ _ _ E) as (Ha & Hr).
  now apply dispatched_append with (used_any := used) (h := h).
Qed.

Lemma serpapi_rounds_dispatched (cfg : Config)
    (capitalize : string -> string) (net : Network) (top_k : Z) (h0 : Heap)
    (entries : list (string * string)) :
  forall n st,
    dispatched h0 n st ->
    dispatched h0 (n + List.length entries)
      (fold_left (serpapi_round cfg capitalize net top_k) entries st).
Proof.
  induction entries as [|e es IH]; intros n st Hd; simpl.
  - now rewrite Nat.add_0_r.
  - replace (n + S (List.length es)) with (S n + List.length es) by lia.
    apply IH. now apply serpapi_round_dispatched.
Qed.

Lemma cse_round_dispatched (cfg : Config) (net : Network) (top_k : Z)
    (h0 : Heap) (n : nat) (st : dispatch_state) :
  dispatched h0 n st -> dispatched h0 (S n) (cse_round cfg net top_k st).
Proof.
  intros Hd. destruct st as [[bags used] h]. unfold cse_round.
  destruct (set_mem "google_cse" ENABLED_ENGINES
            && negb (Str.is_empty (GOOGLE_CSE_API_KEY cfg))
            && negb (Str.is_empty (GOOGLE_CSE_CX cfg)));
    [|(apply dispatched_weaken with (n := n); [lia | exact Hd])].
  destruct (google_cse_search (cse_fetch net) top_k h) as [[bag h']| |] eqn:E;
    try (apply dispatched_weaken with (n := n); [lia | exact Hd]).
  destruct (google_cse_search_ranked _ _ _ E) as (Ha & Hr).
  now apply dispatched_append with (used_any := used) (h := h).
Qed.

(** The dispatcher returns, and what it returns keeps the invariant. *)
Lemma get_results_from_sources_dispatched (cfg : Config)
    (capitalize : string -> string) (title_of : Z -> string) (net : Network)
    (query : string) (top_k : Z) (h : Heap) :
  exists bags h',
    get_results_from_sources cfg capitalize title_of net query top_k h
      = Some (bags, h')
    /\ bags <> [] /\ List.length bags <= 5
    /\ Forall (ranked h') bags
    /\ input_untouched h h'.
Proof.
  unfold get_results_from_sources.
  set (st0 := (([] : list (list loc)), false, h)).
  assert (H0 : dispatched h 0 st0).
  { repeat split; try constructor; try apply input_untouched_refl;
      try discriminate. intros E. now contradiction E. }
  set (st1 := if negb (Str.is_empty (SERPAPI_KEY cfg))
              then fold_left (serpapi_round cfg capitalize net top_k)
                     serpapi_map st0
              else st0).
  assert (H1 : dispatched h 4 st1).
  { unfold st1. destruct (negb (Str.is_empty (SERPAPI_KEY cfg))).
    - exact (@serpapi_rounds_dispatched cfg capitalize net top_k h
               serpapi_map 0 st0 H0).
    - apply dispatched_weaken with (n := 0); [lia | exact H0]. }
  pose proof (@cse_round_dispatched cfg net top_k h 4 st1 H1) as H2.
  destruct (cse_round cfg net top_k st1) as [[bags used] h2].
  destruct H2 as (Hu & Hr & Hl & Hused).
  destruct used; simpl.
  - exists bags, h2. repeat split; auto. now apply Hused.
  - assert (Hb : bags = []).
    { destruct bags as [|b bs]; [reflexivity|].
      assert (E : false = true) by (apply Hused; discriminate).
      discriminate. }
    subst bags.
    destruct (@mock_source_ranked title_of "Alpha"%string query
                "guide"%string 2%Q top_k h2 eq_refl)
      as (bag & h3 & E & Ha & _ & Hrk).
    rewrite E. exists [bag], h3. simpl.
    split; [reflexivity|]. split; [discriminate|]. split; [lia|].
    split; [constructor; [exact Hrk | constructor]|].
    eapply input_untouched_trans; [exact Hu|].
    exact (allocated_untouched Ha).
Qed.

(** X16: [get_results_from_sources] never raises and never returns an
    empty list of bags: there are between one and five bags, every bag is
    a ranked list of allocated results (ranks 1, 2, ... in list order), and
    no object that existed before is changed. *)
Theorem get_results_from_sources_returns (cfg : Config)
    (capitalize : string -> string) (title_of : Z -> string) (net : Network)
    (query : string) (top_k : Z) (h : Heap) :
  exists bags h',
    get_results_from_sources cfg capitalize title_of net query top_k h
      = Some (bags, h')
    /\ bags <> [] /\ 1 <= List.length bags <= 5
    /\ Forall (ranked h') bags
    /\ input_untouched h h'.
Proof.
  destruct (get_results_from_sources_dispatched cfg capitalize title_of net
              query top_k h) as (bags & h' & E & Hne & Hl & Hr & Hu).
  exists bags, h'. repeat split; auto.
  destruct bags; [contradiction | simpl; lia].
Qed.

(** X17: when no remote adapter that is tried returns, be it that keys
    are missing or that every request fails, the result is the one mock
    list "Alpha", with [top_k] results. *)
Theorem get_results_from_sources_falls_back (cfg : Config)
    (capitalize : string -> string) (title_of : Z -> string) (net : Network)
    (query : string) (top_k : Z) (h : Heap) :
  all_remote_fail cfg net top_k ->
  exists bag h',
    mock_source title_of "Alpha" query top_k "guide" 2%Q h = Some (bag, h')
    /\ get_results_from_sources cfg capitalize title_of net query top_k h
       = Some ([bag], h')
    /\ List.length bag = Z.to_nat top_k.
Proof.
  intros [Hserp Hcse]. unfold get_results_from_sources.
  set (st0 := (([] : list (list loc)), false, h)).
  assert (E1 : (if negb (Str.is_empty (SERPAPI_KEY cfg))
                then fold_left (serpapi_round cfg capitalize net top_k)
                       serpapi_map st0
                else st0) = st0).
  { destruct Hserp as [->|Hnone]; [reflexivity|].
    destruct (negb (Str.is_empty (SERPAPI_KEY cfg))) eqn:Ek; [|reflexivity].
    unfold st0, serpapi_map, serpapi_round, serpapi_search. simpl.
    apply negb_true_iff in Ek. rewrite Ek, !Hnone. reflexivity. }
  rewrite E1.
  assert (E2 : cse_round cfg net top_k st0 = st0).
  { unfold cse_round, st0.
    destruct Hcse as [->|[->|Hraise]].
    - now rewrite andb_false_r.
    - now rewrite andb_false_r.
    - rewrite Hraise.
      now destruct (set_mem "google_cse" ENABLED_ENGINES
                    && negb (Str.is_empty (GOOGLE_CSE_API_KEY cfg))
                    && negb (Str.is_empty (GOOGLE_CSE_CX cfg))). }
  rewrite E2. unfold st0. simpl.
  destruct (@mock_source_ranked title_of "Alpha"%string query
              "guide"%string 2%Q top_k h eq_refl)
    as (bag & h' & E & _ & Hlen & _).
  rewrite E. exists bag, h'. auto.
Qed.

Lemma get_results_from_sources_falls_back_witness :
  exists bag h',
    get_results_from_sources config_keys (fun s => s) (fun _ => "T"%string)
      net_down "q" 3 []
    = Some ([bag], h')
    /\ List.length bag = 3.
Proof.
  destruct (@get_results_from_sources_falls_back config_keys (fun s => s)
              (fun _ => "T"%string) net_down "q"%string 3%Z [])
    as (bag & h' & _ & E & Hl).
  - split; [right; reflexivity|]. right. right. reflexivity.
  - exists bag, h'. split; [exact E | exact Hl].
Defined.

End Dispatcher.

(* ------------------------------------------------------------------ *)
(** ** Fusing, then de-duplicating *)
(* ------------------------------------------------------------------ *)

Section Pipeline.

Lemma before_cons (A : Type) (x a b : A) (l : list A) :
  before a b l -> before a b (x :: l).
Proof. intros (l1 & l2 & l3 & ->). now exists (x :: l1), l2, l3. Qed.

Lemma before_head (A : Type) (x b : A) (l : list A) :
  In b l -> before x b (x :: l).
Proof.
  intros H. apply in_split in H. destruct H as (l2 & l3 & ->).
  now exists [], l2, l3.
Qed.

Lemma before_cons_inv (A : Type) (x a b : A) (l : list A) :
  before a b (x :: l) -> (a = x /\ In b l) \/ before a b l.
Proof.
  intros (l1 & l2 & l3 & E). destruct l1 as [|y l1]; simpl in E.
  - injection E as <- ->. left. split; [reflexivity|].
    apply in_or_app. right. now left.
  - injection E as _ ->. right. now exists l1, l2, l3.
Qed.

(** The survivors stand in the order they had. *)
Lemma keep_first_before (h : Heap) (results : list loc) :
  forall seen a b,
    before a b (keep_first h results seen) -> before a b results.
Proof.
  induction results as [|x rest IH]; intros seen a b H.
  - destruct H as (l1 & l2 & l3 & E). destruct l1; discriminate.
  - cbn [keep_first] in H.
    destruct (set_mem (dedup_key h x) seen).
    + apply before_cons. exact (IH _ _ _ H).
    + apply before_cons_inv in H. destruct H as [[-> Hb]|H].
      * apply before_head. eapply keep_first_In, Hb.
      * apply before_cons. exact (IH _ _ _ H).
Qed.

Lemma find_first_before (A : Type) (p : A -> bool) (a b : A) (l : list A) :
  find p l = Some a -> In b l -> p b = true -> b <> a -> before a b l.
Proof.
  induction l as [|x l IH]; intros Hf Hb Hp Hne; [destruct Hb|].
  cbn [find] in Hf. destruct (p x) eqn:Px.
  - injection Hf as ->. destruct Hb as [->|Hb]; [contradiction|].
    now apply before_head.
  - destruct Hb as [->|Hb]; [congruence|].
    apply before_cons. now apply IH.
Qed.

Lemma firstn_store (h : Heap) (n l : nat) (r : Result) :
  n <= l -> firstn n (store h l r) = firstn n h.
Proof.
  revert n l. induction h as [|x h IH]; intros n l Hnl; [reflexivity|].
  destruct l as [|l]; simpl.
  - now replace n with 0 by lia.
  - destruct n as [|n]; [reflexivity|]. simpl. f_equal. apply IH. lia.
Qed.

Lemma assign_ranks_untouched (h0 : Heap) (unique : list loc) :
  forall i h,
    (forall l, In l unique -> List.length h0 <= l) ->
    input_untouched h0 h -> input_untouched h0 (assign_ranks unique i h).
Proof.
  unfold input_untouched.
  induction unique as [|r rest IH]; intros i h Hl Hu; simpl; [exact Hu|].
  apply IH; [intros l Hin; apply Hl; now right|].
  unfold setitem_rank. rewrite firstn_store; [exact Hu|].
  apply Hl. now left.
Qed.

(** Either fusion function leaves behind a fusion result. *)
Lemma fusion_step (fusion_method : string) (rrf_k : Z)
    (ranked_lists : list (list loc)) (h : Heap) (fused : list loc)
    (h1 : Heap) :
  valid h (List.concat ranked_lists) ->
  (if startswith fusion_method "Reciprocal"
   then rrf_fusion ranked_lists rrf_k h
   else combsum_fusion ranked_lists h) = Some (fused, h1) ->
  exists c, fused_from c h (List.concat ranked_lists) fused h1.
Proof.
  intros Hv. destruct (startswith fusion_method "Reciprocal"); intros E.
  - exists (rrf_contrib rrf_k). now apply rrf_fusion_Some.
  - exists combsum_contrib. now apply combsum_fusion_Some.
Qed.

Lemma canonical_urls_keys (h : Heap) (ls : list loc) :
  (forall a, In a ls -> has_url h a = true) ->
  canonical_urls h ls = keys_of h ls.
Proof.
  intros H. unfold canonical_urls, keys_of. apply map_ext_in.
  intros a Ha. symmetry. apply dedup_key_url. now apply H.
Qed.

Lemma same_but_rank_url (h h' : Heap) (a : loc) :
  same_but_rank (deref h a) (deref h' a) -> item_url h' a = item_url h a.
Proof. intros (_ & E & _). unfold item_url, get_url. now rewrite E. Qed.

Lemma fused_untouched_of (c : Result -> Q) (h : Heap)
    (items fused : list loc) (h1 : Heap) :
  fused_from c h items fused h1 -> input_untouched h h1.
Proof.
  intros (sc & rp & _ & _ & _ & ->). apply input_untouched_app. eauto.
Qed.

(** De-duplicating what a fusion left behind. *)
Lemma dedupe_fused (c : Result -> Q) (h : Heap) (items fused : list loc)
    (h1 : Heap) :
  fused_from c h items fused h1 ->
  let final := fst (deduplicate fused h1) in
  let h2 := snd (deduplicate fused h1) in
  NoDup (canonical_urls h2 final)
  /\ ranks_contiguous final h2
  /\ scores_descend final h2
  /\ (forall a, In a final -> has_url h2 a = true)
  /\ input_untouched h h2
  /\ (forall b, In b fused ->
        exists a sa sb,
          In a final
          /\ canonicalize_url (item_url h1 a) = canonicalize_url (item_url h1 b)
          /\ score (deref h1 a) = Some sa /\ score (deref h1 b) = Some sb
          /\ (sb <= sa)%Q).
Proof.
  intros Hf. rewrite deduplicate_unfold. cbn [fst snd].
  set (final := keep_first h1 fused []).
  set (h2 := assign_ranks final 1%Z h1).
  destruct (fused_urls Hf) as (_ & _ & Hurl).
  destruct (fused_fresh Hf) as (_ & Hfresh).
  assert (Hin : forall a, In a final -> In a fused)
    by (intros a; apply keep_first_In).
  assert (Hframe : forall a, same_but_rank (deref h1 a) (deref h2 a))
    by (intros a; apply assign_ranks_frame).
  assert (Hu2 : forall a, item_url h2 a = item_url h1 a)
    by (intros a; now apply same_but_rank_url).
  assert (Hs2 : forall a, score (deref h2 a) = score (deref h1 a)).
  { intros a. now destruct (Hframe a) as (_ & _ & _ & _ & E). }
  split.
  { assert (E : canonical_urls h2 final = keys_of h1 final).
    { rewrite <- (canonical_urls_keys h1 final)
        by (intros a Ha; auto).
      unfold canonical_urls. apply map_ext. intros a. now rewrite Hu2. }
    rewrite E. apply keep_first_keys_NoDup. }
  split.
  { apply ranks_of_assign_ranks; [apply keep_first_NoDup|].
    unfold valid. rewrite Forall_forall. intros a Ha.
    destruct (Hfresh a (Hin a Ha)) as [Hb _]. lia. }
  split.
  { intros a b Hab. apply keep_first_before in Hab.
    destruct (fused_descend Hf Hab) as (sa & sb & Ha & Hb & Hle).
    exists sa, sb. rewrite !Hs2. auto. }
  split.
  { intros a Ha. unfold has_url. rewrite Hu2. now apply Hurl, Hin. }
  split.
  { apply assign_ranks_untouched; [|exact (fused_untouched_of Hf)].
    intros l Hl. destruct (Hfresh l (Hin l Hl)) as [Hb _]. lia. }
  intros b Hb.
  assert (Hk : In (dedup_key h1 b) (keys_of h1 final)).
  { apply (keep_first_covers h1 fused [] b Hb). intros []. }
  unfold keys_of in Hk. apply in_map_iff in Hk. destruct Hk as [a [Ek Ha]].
  destruct (fused_entry_fields Hf a (Hin a Ha)) as (Hsa & _).
  destruct (fused_entry_fields Hf b Hb) as (Hsb & _).
  exists a, (get_score (deref h1 a)), (get_score (deref h1 b)).
  split; [exact Ha|]. split.
  { rewrite <- !dedup_key_url by auto. exact Ek. }
  split; [exact Hsa|]. split; [exact Hsb|].
  destruct (Nat.eq_dec b a) as [->|Hne]; [apply Qle_refl|].
  assert (Hab : before a b fused).
  { apply (find_first_before
             (fun r' => String.eqb (dedup_key h1 r') (dedup_key h1 a))).
    - exact (keep_first_is_first _ _ _ _ Ha).
    - exact Hb.
    - apply String.eqb_eq. now symmetry.
    - exact Hne. }
  destruct (fused_descend Hf Hab) as (sa & sb & Ea & Eb & Hle).
  rewrite Ea, Eb in *. injection Hsa as <-. injection Hsb as <-. exact Hle.
Qed.




(** X18: with de-duplication switched on, what the search flow shows has
    pairwise distinct canonical urls, ranks 1, 2, ... in list order, scores
    that never go up along the list, a url on every entry, and no object of
    the input is changed. *)
Theorem fuse_and_dedupe_distinct (fusion_method : string) (rrf_k : Z)
    (ranked_lists : list (list loc)) (h : Heap) (final : list loc)
    (h2 : Heap) :
  valid h (List.concat ranked_lists) ->
  fuse_and_dedupe fusion_method rrf_k true ranked_lists h
    = Some (final, h2) ->
  NoDup (canonical_urls h2 final)
  /\ ranks_contiguous final h2
  /\ scores_descend final h2
  /\ (forall a, In a final -> has_url h2 a = true)
  /\ input_untouched h h2.
Proof.
  intros Hv. unfold fuse_and_dedupe.
  destruct (if startswith fusion_method "Reciprocal"
            then rrf_fusion ranked_lists rrf_k h
            else combsum_fusion ranked_lists h)
    as [[fused h1]|] eqn:E; [|discriminate].
  destruct (fusion_step _ _ _ Hv E) as [c Hf].
  pose proof (dedupe_fused Hf) as H. cbv zeta in H.
  intros Ed.
  assert (Ed' : deduplicate fused h1 = (final, h2)) by congruence.
  rewrite Ed' in H. cbn [fst snd] in H.
  destruct H as (H1 & H2 & H3 & H4 & H5 & _). auto.
Qed.

Lemma fuse_and_dedupe_distinct_witness :
  exists final h2,
    fuse_and_dedupe "Reciprocal Rank Fusion (RRF)" 60 true lists_raw heap_raw
      = Some (final, h2)
    /\ List.length final = 1
    /\ NoDup (canonical_urls h2 final)
    /\ ranks_contiguous final h2.
Proof.
  destruct (fuse_and_dedupe "Reciprocal Rank Fusion (RRF)" 60 true lists_raw
              heap_raw) as [[final h2]|] eqn:E; [|vm_compute in E; discriminate].
  exists final, h2. split; [reflexivity|].
  split; [vm_compute in E; injection E as <- _; reflexivity|].
  destruct (@fuse_and_dedupe_distinct "Reciprocal Rank Fusion (RRF)" 60
              lists_raw heap_raw final h2) as (H1 & H2 & _).
  - repeat constructor.
  - exact E.
  - split; assumption.
Defined.

(** X19: switching de-duplication on only removes entries of the fused
    list, keeps their order, and for every fused entry leaves one with the
    same canonical url whose score is at least as high. *)
Theorem fuse_and_dedupe_keeps_best (fusion_method : string) (rrf_k : Z)
    (ranked_lists : list (list loc)) (h : Heap) (fused : list loc)
    (h1 : Heap) :
  valid h (List.concat ranked_lists) ->
  fuse_and_dedupe fusion_method rrf_k false ranked_lists h
    = Some (fused, h1) ->
  exists final h2,
    fuse_and_dedupe fusion_method rrf_k true ranked_lists h
      = Some (final, h2)
    /\ incl final fused
    /\ (forall a b, before a b final -> before a b fused)
    /\ (forall b, In b fused ->
          exists a sa sb,
            In a final
            /\ canonicalize_url (item_url h2 a)
               = canonicalize_url (item_url h1 b)
            /\ score (deref h2 a) = Some sa /\ score (deref h1 b) = Some sb
            /\ (sb <= sa)%Q).
Proof.
  intros Hv. unfold fuse_and_dedupe.
  destruct (if startswith fusion_method "Reciprocal"
            then rrf_fusion ranked_lists rrf_k h
            else combsum_fusion ranked_lists h)
    as [[fused' h1']|] eqn:E; [|discriminate].
  intros [= -> ->].
  destruct (fusion_step _ _ _ Hv E) as [c Hf].
  pose proof (dedupe_fused Hf) as H. cbv zeta in H.
  destruct H as (_ & _ & _ & _ & _ & Hbest).
  rewrite deduplicate_unfold in *. cbn [fst snd] in Hbest.
  set (final := keep_first h1 fused []) in *.
  exists final, (assign_ranks final 1%Z h1).
  split; [reflexivity|].
  split; [intros a; apply keep_first_In|].
  split; [intros a b; apply keep_first_before|].
  intros b Hb. destruct (Hbest b Hb) as (a & sa & sb & Ha & Eu & Ea & Eb & Hle).
  exists a, sa, sb.
  pose proof (assign_ranks_frame final 1%Z h1 a) as Hfr.
  rewrite (@same_but_rank_url h1 (assign_ranks final 1%Z h1) a Hfr).
  destruct Hfr as (_ & _ & _ & _ & Es). rewrite Es. auto.
Qed.

Lemma fuse_and_dedupe_keeps_best_witness :
  exists final h2,
    fuse_and_dedupe "CombSUM" 60 true lists_raw heap_raw = Some (final, h2)
    /\ incl final [2; 3].
Proof.
  destruct (@fuse_and_dedupe_keeps_best "CombSUM" 60 lists_raw heap_raw
              [2; 3]
              (snd (match fuse_and_dedupe "CombSUM" 60 false lists_raw
                            heap_raw with
                    | Some p => p
                    | None => ([], [])
                    end)))
    as (final & h2 & E & Hi & _).
  - repeat constructor.
  - vm_compute. reflexivity.
  - exists final, h2. split; assumption.
Defined.



End Pipeline.
